(** * The news worker (src/index.ts, src/types.ts): a shallow embedding

    The worker runs one batch over a fixed list of categories.  For each
    category it fetches articles, asks a text model to choose one, resolves
    an image, composes a graphic and posts it.  This file embeds the pure
    parts of [src/index.ts] as functions and the effectful parts as
    functions of the answers of the outside world, and proves properties of
    them.

    Conventions.
    - A JavaScript string is a list of code units.  The model covers code
      units below 256, so a string is a [list ascii]; [lit] turns a literal
      into one.
    - [undefined] and [null] are [None].
    - A function that can throw returns a [Completion]. *)

From Stdlib Require Import ZArith NArith List String Ascii Lia Bool.
From Stdlib Require Import DecimalString DecimalFacts DecimalNat.
From stdpp Require Import base option list gmap strings.

Local Open Scope list_scope.

(** ** JavaScript strings *)

Abbreviation jsstring := (list ascii).

Definition lit (s : string) : jsstring := list_ascii_of_string s.

Definition code (c : ascii) : N := N_of_ascii c.

Definition ch (n : N) : ascii := ascii_of_N n.

(** [a === b] on strings. *)
Definition str_eqb (a b : jsstring) : bool := bool_decide (a = b).

(** A string is truthy when it is not empty. *)
Definition truthy (s : jsstring) : bool :=
  match s with [] => false | _ :: _ => true end.

(** [x || y] where [x] may be [null]: [x] when it is a non-empty string. *)
Definition opt_truthy (o : option jsstring) : bool :=
  match o with Some s => truthy s | None => false end.

(** WhiteSpace and LineTerminator code units below 256: TAB, LF, VT, FF, CR,
    SP and NBSP. *)
Definition isWhiteSpace (c : ascii) : bool :=
  let n := code c in
  ((9 <=? n) && (n <=? 13) || (n =? 32) || (n =? 160))%N.

Fixpoint trimStart (s : jsstring) : jsstring :=
  match s with
  | c :: s' => if isWhiteSpace c then trimStart s' else s
  | [] => []
  end.

Definition trimEnd (s : jsstring) : jsstring := rev (trimStart (rev s)).

(** [s.trim()] *)
Definition trim (s : jsstring) : jsstring := trimEnd (trimStart s).

(** [s.split(sep)] for a separator of one code unit: the pieces between the
    separators, [[""]] for the empty string. *)
Fixpoint splitOn (sep : ascii) (s : jsstring) : list jsstring :=
  match s with
  | [] => [[]]
  | c :: s' =>
      if bool_decide (c = sep) then [] :: splitOn sep s'
      else match splitOn sep s' with
           | piece :: pieces => (c :: piece) :: pieces
           | [] => [[c]]
           end
  end.

(** [parts.join(sep)] *)
Fixpoint join (sep : jsstring) (parts : list jsstring) : jsstring :=
  match parts with
  | [] => []
  | [p] => p
  | p :: ps => p ++ sep ++ join sep ps
  end.

(** [s.toLowerCase()] on code units below 256: A-Z and the Latin-1 capitals
    (0xC0-0xDE except the multiplication sign 0xD7) move up by 32. *)
Definition lowerChar (c : ascii) : ascii :=
  let n := code c in
  if ((65 <=? n) && (n <=? 90) || (192 <=? n) && (n <=? 222) && negb (n =? 215))%N
  then ch (n + 32) else c.

Definition toLowerCase (s : jsstring) : jsstring := map lowerChar s.

(** [String(n)] for a non-negative integer. *)
Definition String_of_nat (n : nat) : jsstring :=
  lit (NilEmpty.string_of_uint (Nat.to_uint n)).

(** ** Completions *)

(** What a [throw] or a rejected promise carries. *)
Inductive Error : Type :=
| Rejected                                   (* a collaborator's promise rejects *)
| TypeError                                  (* a property of undefined is read *)
| SyntaxError                                (* new RegExp refuses the pattern *)
| NewsDataRequestFailed (statusText : jsstring)
| GeminiParseFailed (text : jsstring)
| FontFetchFailed
| CloudinaryUploadFailed
| WebhookFailed.

Inductive Completion (A : Type) : Type :=
| Returns (a : A)
| Throws (e : Error).
Arguments Returns {A} a.
Arguments Throws {A} e.

(** ** types.ts *)

(** [NewsArticle].  [pubDate] holds [new Date(pubDate).getTime()], the only
    use the worker makes of the field; [source_priority], [country],
    [category] and [language] are never read and are left out. *)
Record NewsArticle : Type := {
  article_id : jsstring;
  title : jsstring;
  link : jsstring;
  description : option jsstring;
  content : option jsstring;
  pubDate : Z;
  image_url : option jsstring;
  source_id : jsstring
}.

(** [NewsDataResponse]: [results] may be missing from the body. *)
Record NewsDataResponse : Type := {
  status : jsstring;
  results : option (list NewsArticle)
}.

(** [GeminiAnalysisResult] as the parser builds it: [chosenId] is [None] for
    NaN, a string field is [None] when the parser stored [undefined]. *)
Record GeminiAnalysisResult : Type := {
  chosenId : option Z;
  headline : option jsstring;
  highlightWords : list jsstring;
  imagePrompt : option jsstring;
  caption : option jsstring;
  sourceName : option jsstring
}.

Record NewsCategory : Type := {
  name : jsstring;
  apiValue : jsstring
}.

Record HeadlinePart : Type := {
  text : jsstring;
  highlighted : bool
}.

(** ** The Article Aggregator: fetchNewsForCategory *)

Definition mkCategory (n v : string) : NewsCategory :=
  {| name := lit n; apiValue := lit v |}.

Definition NEWS_CATEGORIES : list NewsCategory :=
  [ mkCategory "Trending" "top";
    mkCategory "Politics" "politics";
    mkCategory "Crime" "crime";
    mkCategory "Entertainment" "entertainment";
    mkCategory "Business/Corporate" "business" ].

(** What [fetch(url)] gives: the promise rejects, or a response arrives with
    its [ok] flag, its status text and its JSON body ([None] when
    [res.json()] rejects). *)
Inductive NewsFetch : Type :=
| NewsFetchRejects
| NewsResponse (ok : bool) (statusText : jsstring) (body : option NewsDataResponse).

(** [new Map(entries)]: a later entry with a key already present replaces
    the value and keeps the key's place in the insertion order. *)
Fixpoint Map_set {V : Type} (k : jsstring) (v : V) (m : list (jsstring * V))
  : list (jsstring * V) :=
  match m with
  | [] => [(k, v)]
  | (k', v') :: m' =>
      if bool_decide (k' = k) then (k, v) :: m' else (k', v') :: Map_set k v m'
  end.

Definition new_Map {V : Type} (entries : list (jsstring * V)) : list (jsstring * V) :=
  fold_left (fun m kv => Map_set (fst kv) (snd kv) m) entries [].

Definition Map_values {V : Type} (m : list (jsstring * V)) : list V := map snd m.

(** [Array.from(new Map(allArticles.map(a => [a.link, a])).values())] *)
Definition uniqueByLink (allArticles : list NewsArticle) : list NewsArticle :=
  Map_values (new_Map (map (fun a => (link a, a)) allArticles)).

(** [sort((a, b) => time(b) - time(a))]: the sort is stable, the most
    recent article comes first. *)
Fixpoint insertByDate (a : NewsArticle) (l : list NewsArticle) : list NewsArticle :=
  match l with
  | [] => [a]
  | b :: l' =>
      if (pubDate b - pubDate a <=? 0)%Z then a :: b :: l'
      else b :: insertByDate a l'
  end.

Definition sortByDateDesc (l : list NewsArticle) : list NewsArticle :=
  foldr insertByDate [] l.

(** [r.results || []] *)
Definition resultsOrEmpty (r : NewsDataResponse) : list NewsArticle :=
  match results r with Some l => l | None => [] end.

(** [fetch(url).then(res => res.json())]: no look at [res.ok]. *)
Definition fetchJson (f : NewsFetch) : Completion NewsDataResponse :=
  match f with
  | NewsFetchRejects => Throws Rejected
  | NewsResponse _ _ (Some body) => Returns body
  | NewsResponse _ _ None => Throws Rejected
  end.

(** [await Promise.all(promises)]: every promise must fulfil. *)
Fixpoint Promise_all {A : Type} (ps : list (Completion A)) : Completion (list A) :=
  match ps with
  | [] => Returns []
  | Returns a :: ps' =>
      match Promise_all ps' with
      | Returns l => Returns (a :: l)
      | Throws e => Throws e
      end
  | Throws e :: _ => Throws e
  end.

Definition isTop (c : NewsCategory) : bool := str_eqb (apiValue c) (lit "top").

(** The [rawArticles] of the two branches.  [fetch] answers for the URL whose
    [category=] parameter is the argument; the rest of the URL is fixed. *)
Definition fetchRawArticles (fetch : jsstring -> NewsFetch) (category : NewsCategory)
  : Completion (list NewsArticle) :=
  if isTop category then
    let otherCategories :=
      map apiValue (List.filter (fun c => negb (isTop c)) NEWS_CATEGORIES) in
    let promises := map (fun cat => fetchJson (fetch cat)) otherCategories in
    match Promise_all promises with
    | Throws e => Throws e
    | Returns responses =>
        let allArticles := concat (map resultsOrEmpty responses) in
        let uniqueArticles := uniqueByLink allArticles in
        Returns (take 10 (sortByDateDesc uniqueArticles))
    end
  else
    match fetch (apiValue category) with
    | NewsFetchRejects => Throws Rejected
    | NewsResponse ok statusText body =>
        if negb ok then Throws (NewsDataRequestFailed statusText)
        else match body with
             | None => Throws Rejected
             | Some data => Returns (resultsOrEmpty data)
             end
    end.

(** [a.image_url && (a.content || a.description)] *)
Definition isValidArticle (a : NewsArticle) : bool :=
  opt_truthy (image_url a) && (opt_truthy (content a) || opt_truthy (description a)).

Definition isUnused (usedUrls : gset jsstring) (a : NewsArticle) : bool :=
  negb (bool_decide (link a ∈ usedUrls)).

Definition fetchNewsForCategory (fetch : jsstring -> NewsFetch)
    (category : NewsCategory) (usedUrls : gset jsstring)
  : Completion (list NewsArticle) :=
  match fetchRawArticles fetch category with
  | Throws e => Throws e
  | Returns rawArticles =>
      let validArticles := List.filter isValidArticle rawArticles in
      let unusedArticles := List.filter (isUnused usedUrls) validArticles in
      Returns unusedArticles
  end.

(** ** The Selection Protocol: buildGeminiPrompt and analyzeArticlesWithGemini *)

Definition dquote : ascii := ch 34.
Definition newline : ascii := ch 10.

(** [article.content || article.description] inside the template: a missing
    description prints as [null]. *)
Definition contentOrDescription (a : NewsArticle) : jsstring :=
  if opt_truthy (content a) then default [] (content a)
  else match description a with Some d => d | None => lit "null" end.

(** One element of [articles.map((article, index) => ...)]; [id] is
    [index + 1]. *)
Definition articleEntry (id : nat) (article : NewsArticle) : jsstring :=
  lit "ARTICLE " ++ String_of_nat id ++ lit ":" ++ [newline] ++
  lit "ID: " ++ String_of_nat id ++ [newline] ++
  lit "Title: " ++ title article ++ [newline] ++
  lit "Content: " ++ contentOrDescription article ++ [newline] ++
  lit "Source: " ++ source_id article ++ [newline] ++
  lit "---".

Definition articleEntries (articles : list NewsArticle) : list jsstring :=
  imap (fun index article => articleEntry (index + 1) article) articles.

Definition articlesString (articles : list NewsArticle) : jsstring :=
  join [newline] (articleEntries articles).

Definition promptHead : jsstring :=
  lit "
You are an expert news editor for a Bangladeshi social media channel. Your goal is to find the single most important, impactful, and relevant story for your audience from a list of recent articles.

**Your First Task: Select the Best Article**
- You will be given a list of news articles.
- Review all articles and select the ONE that is most newsworthy and DIRECTLY about Bangladesh.
- **CRITICAL RULE:** The article's main subject MUST be Bangladesh. News about other countries (e.g., India) is NOT relevant unless Bangladesh or a Bangladeshi entity is a primary subject of the article (e.g., a bilateral agreement). An article about Indian politics is irrelevant. Be extremely strict.
- If NONE of the articles meet this strict criteria, you MUST respond with ONLY the single word: IRRELEVANT.

**If you find a suitable article, proceed to Your Second Task:**
- Identify the article you chose by its ID.
- Perform a full analysis on ONLY that chosen article.

**Analysis Steps:**
**1. Headline Generation (IMPACT Principle):** Informative, Main Point, Prompting Curiosity, Active Voice, Concise, Targeted.
**2. Highlight Phrase Identification:** Identify key phrases from your new headline that capture critical information (entities, key terms, numbers). List these exact phrases, separated by commas.
**3. Image Prompt Generation (SCAT Principle & Safety):** Generate a concise, descriptive prompt for an AI image generator. The prompt MUST be safe for work and MUST NOT contain depictions of specific people (especially political figures), violence, conflict, or other sensitive topics. Instead, focus on symbolic, abstract, or neutral representations of the news. For example, for a political story, prompt " ++ [dquote] ++
  lit "Gavel on a table with a Bangladeshi flag in the background" ++ [dquote] ++
  lit " instead of showing politicians. The prompt should follow the SCAT principle (Subject, Context, Atmosphere, Type).
**4. Caption & Source:** Create a social media caption (~50 words) with 3-5 relevant hashtags.

**List of Articles to Analyze:**
".

Definition promptTail : jsstring :=
  lit "

**Output Format (Strict):**
- If no article is relevant, respond ONLY with: IRRELEVANT
- If you find a relevant article, respond ONLY with the following format. Do not add any other text or formatting. Each field must be on a new line.

CHOSEN_ID: [The ID number of the article you selected]
HEADLINE: [Your generated headline for the chosen article]
HIGHLIGHT_WORDS: [phrase 1, phrase 2]
IMAGE_PROMPT: [Your generated image prompt]
CAPTION: [Your generated caption. Crucially, DO NOT include the source name in the caption.]
SOURCE_NAME: [The source name (e.g., 'thedailystar') from the chosen article. This is a mandatory and separate field.]
    ".

Definition buildGeminiPrompt (articles : list NewsArticle) : jsstring :=
  promptHead ++ articlesString articles ++ promptTail.

(** [parseInt(s, 10)]: leading white space is skipped, a sign is read, then
    the longest run of decimal digits; no digit gives NaN ([None]).  The
    value is kept exact (a double rounds above 2^53, far beyond any array
    index). *)
Definition digitValue (c : ascii) : option Z :=
  let n := code c in
  if ((48 <=? n) && (n <=? 57))%N then Some (Z.of_N n - 48)%Z else None.

Fixpoint parseDigits (acc : option Z) (s : jsstring) : option Z :=
  match s with
  | c :: s' =>
      match digitValue c with
      | Some d => parseDigits (Some (10 * default 0%Z acc + d)%Z) s'
      | None => acc
      end
  | [] => acc
  end.

(** The argument is [None] for [undefined], which [parseInt] reads as the
    string [undefined]. *)
Definition parseInt (o : option jsstring) : option Z :=
  let inputString := match o with Some s => s | None => lit "undefined" end in
  let s := trimStart inputString in
  match s with
  | c :: r =>
      if bool_decide (c = "-"%char) then Z.opp <$> parseDigits None r
      else if bool_decide (c = "+"%char) then parseDigits None r
      else parseDigits None s
  | [] => None
  end.

(** The body of [lines.forEach(line => ...)]: the piece before the first
    colon is the key, the rest joined again is the value; a line with no
    colon or with nothing before it is skipped.  [data] is a plain object:
    an assignment to the key [__proto__] runs the setter it inherits, which
    ignores a string, so nothing is stored for that key.  Only the six keys
    read below are looked up, so the other keys that [data] inherits do not
    matter. *)
Definition storeLine (data : gmap jsstring jsstring) (line : jsstring)
  : gmap jsstring jsstring :=
  match splitOn ":"%char line with
  | key :: valueParts =>
      if truthy key && bool_decide (0 < length valueParts)
      then if str_eqb (trim key) (lit "__proto__") then data
           else <[trim key := trim (join (lit ":") valueParts)]> data
      else data
  | [] => data
  end.

Definition parseLines (text : jsstring) : gmap jsstring jsstring :=
  let lines := map trim (splitOn newline text) in
  fold_left storeLine lines ∅.

(** The [try] block: the only expression in it that can throw is
    [data['HIGHLIGHT_WORDS'].split(',')], when the key is missing; the
    [catch] turns that into the parse failure. *)
Definition parseAnalysis (text : jsstring) : Completion GeminiAnalysisResult :=
  let data := parseLines text in
  match data !! lit "HIGHLIGHT_WORDS" with
  | None => Throws (GeminiParseFailed text)
  | Some words =>
      Returns {| chosenId := parseInt (data !! lit "CHOSEN_ID");
                 headline := data !! lit "HEADLINE";
                 highlightWords := map trim (splitOn ","%char words);
                 imagePrompt := data !! lit "IMAGE_PROMPT";
                 caption := data !! lit "CAPTION";
                 sourceName := data !! lit "SOURCE_NAME" |}
  end.

(** What follows [await ai.models.generateContent(...)], given
    [result.text].  [None] is the [null] of the source: no relevant
    article. *)
Definition interpretReply (resultText : option jsstring)
  : Completion (option GeminiAnalysisResult) :=
  match resultText with
  | None => Throws TypeError
  | Some raw =>
      let text := trim raw in
      if str_eqb text (lit "IRRELEVANT") then Returns None
      else match parseAnalysis text with
           | Returns r => Returns (Some r)
           | Throws e => Throws e
           end
  end.

(** [generateContent] answers the prompt with a rejection or with a result
    whose [text] may be [undefined]. *)
Definition analyzeArticlesWithGemini (articles : list NewsArticle)
    (generateContent : jsstring -> Completion (option jsstring))
  : Completion (option GeminiAnalysisResult) :=
  let prompt := buildGeminiPrompt articles in
  match generateContent prompt with
  | Throws e => Throws e
  | Returns resultText => interpretReply resultText
  end.

(** [articles[analysisResult.chosenId - 1]]: [undefined] unless the index is
    an integer position of the array. *)
Definition chosenArticleAt (articles : list NewsArticle) (chosenId : option Z)
  : option NewsArticle :=
  match chosenId with
  | None => None
  | Some z => if (0 <=? z - 1)%Z then articles !! Z.to_nat (z - 1) else None
  end.

(** ** The Image Resolver: prepareMainImage *)

(** [btoa(binary)]: base64 with padding. *)
Definition base64Alphabet : jsstring :=
  lit "ABCDEFGHIJKLMNOPQRSTUVWXYZabcdefghijklmnopqrstuvwxyz0123456789+/".

Definition base64Digit (n : N) : ascii :=
  nth (N.to_nat n) base64Alphabet "="%char.

Fixpoint btoa (binary : jsstring) : jsstring :=
  match binary with
  | [] => []
  | [a] =>
      let n := (code a * 65536)%N in
      [base64Digit (n / 262144); base64Digit (n / 4096 mod 64); "="%char; "="%char]
  | [a; b] =>
      let n := (code a * 65536 + code b * 256)%N in
      [base64Digit (n / 262144); base64Digit (n / 4096 mod 64);
       base64Digit (n / 64 mod 64); "="%char]
  | a :: b :: c :: rest =>
      let n := (code a * 65536 + code b * 256 + code c)%N in
      base64Digit (n / 262144) :: base64Digit (n / 4096 mod 64) ::
      base64Digit (n / 64 mod 64) :: base64Digit (n mod 64) :: btoa rest
  end.

(** What [fetch(article.image_url)] gives.  [bytes] is [None] when reading
    the body rejects. *)
Inductive ImageFetch : Type :=
| ImageFetchRejects
| ImageResponse (ok : bool) (contentType : option jsstring) (bytes : option jsstring).

(** What [ai.models.generateImages] gives: a rejection, or a response whose
    [generatedImages] may be missing; an image is its [imageBytes]. *)
Inductive ImageGeneration : Type :=
| GenerationRejects
| GenerationResponse (generatedImages : option (list jsstring)).

Definition dataUrl (mimeType base64 : jsstring) : jsstring :=
  lit "data:" ++ mimeType ++ lit ";base64," ++ base64.

(** The first half: [Some] payload when the article's own image was fetched,
    [None] when control falls through to the generation. *)
Definition fetchOriginalImage (article : NewsArticle) (fetch : jsstring -> ImageFetch)
  : option jsstring :=
  match image_url article with
  | Some url =>
      if truthy url then
        match fetch url with
        | ImageResponse true contentType (Some bytes) =>
            let base64Image := btoa bytes in
            let mimeType :=
              if opt_truthy contentType then default [] contentType
              else lit "image/png" in
            Some (dataUrl mimeType base64Image)
        | _ => None
        end
      else None
  | None => None
  end.

Definition prepareMainImage (article : NewsArticle) (geminiPrompt : option jsstring)
    (fetch : jsstring -> ImageFetch)
    (generateImages : option jsstring -> ImageGeneration)
  : Completion (option jsstring) :=
  match fetchOriginalImage article fetch with
  | Some payload => Returns (Some payload)
  | None =>
      match generateImages geminiPrompt with
      | GenerationRejects => Throws Rejected
      | GenerationResponse (Some (base64ImageBytes :: _)) =>
          Returns (Some (dataUrl (lit "image/png") base64ImageBytes))
      | GenerationResponse _ => Returns None
      end
  end.

(** ** The Composition Engine *)

(** *** Regular expressions

    [new RegExp(source, 'gi')] for the patterns the worker builds.  The
    modelled fragment of the pattern syntax is: literal characters,
    alternation and capturing groups.  Any other syntax character makes the
    pattern [PatternNotModelled]; nothing is claimed about it. *)

Inductive regex : Type :=
| REmpty
| RChar (c : ascii)
| RSeq (r1 r2 : regex)
| RAlt (r1 r2 : regex)
| RGroup (index : nat) (r : regex).

Inductive Compiled : Type :=
| Pattern (r : regex) (groups : nat)
| PatternSyntaxError
| PatternNotModelled.

(** SyntaxCharacter of the pattern grammar. *)
Definition isSyntaxCharacter (c : ascii) : bool :=
  bool_decide (c ∈ lit "^$\.*+?()[]{}|").

(** An open disjunction: the alternatives already closed by a bar and the
    terms of the alternative being read. *)
Record frame : Type := {
  alternatives : list regex;
  terms : list regex
}.

Definition emptyFrame : frame := {| alternatives := []; terms := [] |}.

Definition addTerm (f : frame) (t : regex) : frame :=
  {| alternatives := alternatives f; terms := terms f ++ [t] |}.

Definition seqOf (ts : list regex) : regex :=
  match ts with
  | [] => REmpty
  | t :: ts' => fold_left RSeq ts' t
  end.

Definition altOf (alts : list regex) : regex :=
  match alts with
  | [] => REmpty
  | a :: alts' => fold_left RAlt alts' a
  end.

Definition nextAlternative (f : frame) : frame :=
  {| alternatives := alternatives f ++ [seqOf (terms f)]; terms := [] |}.

Definition closeFrame (f : frame) : regex :=
  altOf (alternatives (nextAlternative f)).

(** The parser reads the source left to right.  [stack] holds, for each
    group still open, its index and the disjunction around it; groups are
    numbered by their opening parenthesis. *)
Fixpoint parsePattern (src : jsstring) (top : frame) (stack : list (nat * frame))
    (groups : nat) : Compiled :=
  match src with
  | [] =>
      match stack with
      | [] => Pattern (closeFrame top) groups
      | _ :: _ => PatternSyntaxError
      end
  | c :: src' =>
      if bool_decide (c = "("%char) then
        parsePattern src' emptyFrame ((S groups, top) :: stack) (S groups)
      else if bool_decide (c = ")"%char) then
        match stack with
        | [] => PatternSyntaxError
        | (index, parent) :: stack' =>
            parsePattern src' (addTerm parent (RGroup index (closeFrame top)))
              stack' groups
        end
      else if bool_decide (c = "|"%char) then
        parsePattern src' (nextAlternative top) stack groups
      else if isSyntaxCharacter c then PatternNotModelled
      else parsePattern src' (addTerm top (RChar c)) stack groups
  end.

Definition new_RegExp (source : jsstring) : Compiled :=
  parsePattern source emptyFrame [] 0.

(** Canonicalize under the [i] flag, on code units below 256: a-z and the
    Latin-1 small letters (0xE0-0xFE except the division sign 0xF7) map to
    their capitals.  The capitals of 0xB5 and 0xFF lie above 255 and no
    other code unit below 256 maps to them, so these two stay as they
    are. *)
Definition canonicalize (c : ascii) : ascii :=
  let n := code c in
  if ((97 <=? n) && (n <=? 122) || (224 <=? n) && (n <=? 254) && negb (n =? 247))%N
  then ch (n - 32) else c.

Abbreviation captures := (list (option jsstring)).

(** A backtracking matcher in continuation style: [s] is the input from the
    current position on, [k] is what remains to be matched.  The left
    alternative is tried first. *)
Fixpoint matchRegex (r : regex) (s : jsstring) (caps : captures)
    (k : jsstring -> captures -> option (jsstring * captures))
  : option (jsstring * captures) :=
  match r with
  | REmpty => k s caps
  | RChar c =>
      match s with
      | x :: s' =>
          if bool_decide (canonicalize x = canonicalize c) then k s' caps else None
      | [] => None
      end
  | RSeq r1 r2 => matchRegex r1 s caps (fun s1 caps1 => matchRegex r2 s1 caps1 k)
  | RAlt r1 r2 =>
      match matchRegex r1 s caps k with
      | Some m => Some m
      | None => matchRegex r2 s caps k
      end
  | RGroup index r1 =>
      matchRegex r1 s caps (fun s1 caps1 =>
        k s1 (<[pred index := Some (take (length s - length s1) s)]> caps1))
  end.

(** A match that must start at the current position (the sticky matcher
    that [split] uses): the input left after the match and the captures. *)
Definition execAt (r : regex) (groups : nat) (s : jsstring)
  : option (jsstring * captures) :=
  matchRegex r s (replicate groups None) (fun s1 caps1 => Some (s1, caps1)).

(** The loop of [RegExp.prototype[Symbol.split]].  With [S] the whole
    string, [p] the end of the last piece and [q] the position tried,
    [piece] is [S[p..q)] and [rest] is [S[q..)]; [e] is the end of the
    match.  The output holds the pieces and, after each, the captures
    ([None] for a group that did not take part). *)
Fixpoint splitLoop (fuel : nat) (r : regex) (groups : nat) (piece rest : jsstring)
  : option captures :=
  match fuel with
  | O => None
  | S fuel' =>
      match rest with
      | [] => Some [Some piece]
      | c :: rest' =>
          match execAt r groups rest with
          | None => splitLoop fuel' r groups (piece ++ [c]) rest'
          | Some (after, caps) =>
              if bool_decide (length after = length piece + length rest)
              then splitLoop fuel' r groups (piece ++ [c]) rest'
              else (fun tail => Some piece :: caps ++ tail)
                     <$> splitLoop fuel' r groups [] after
          end
      end
  end.

(** [S.split(regex)] with no limit.  The loop needs at most two rounds per
    code unit. *)
Definition String_split (r : regex) (groups : nat) (S : jsstring) : option captures :=
  match S with
  | [] =>
      match execAt r groups [] with
      | Some _ => Some []
      | None => Some [Some []]
      end
  | _ :: _ => splitLoop (2 * length S + 2) r groups [] S
  end.

(** [parts.filter(part => part)]: [undefined] and the empty string go. *)
Definition truthyParts (parts : captures) : list jsstring :=
  omap (fun part => match part with
                    | Some s => if truthy s then Some s else None
                    | None => None
                    end) parts.

Definition markPart (highlightWords : list jsstring) (part : jsstring) : HeadlinePart :=
  {| text := part;
     highlighted :=
       existsb (fun h => str_eqb (toLowerCase h) (toLowerCase part)) highlightWords |}.

(** The guard of the first line. *)
Definition noHighlighting (highlightWords : list jsstring) : bool :=
  match highlightWords with
  | [] => true
  | first :: _ => str_eqb first []
  end.

Definition highlightPattern (highlightWords : list jsstring) : jsstring :=
  lit "(" ++ join (lit "|") highlightWords ++ lit ")".

(** The result is [None] when the pattern lies outside the modelled
    fragment. *)
Definition splitHeadlineForHighlighting (headline : jsstring)
    (highlightWords : list jsstring) : option (Completion (list HeadlinePart)) :=
  if noHighlighting highlightWords then
    Some (Returns [ {| text := headline; highlighted := false |} ])
  else
    match new_RegExp (highlightPattern highlightWords) with
    | PatternNotModelled => None
    | PatternSyntaxError => Some (Throws SyntaxError)
    | Pattern regex groups =>
        match String_split regex groups headline with
        | None => None
        | Some parts => Some (Returns (map (markPart highlightWords) (truthyParts parts)))
        end
    end.

Definition getDynamicFontSize (headline : jsstring) : nat :=
  let length := length headline in
  if bool_decide (length <= 50) then 72
  else if bool_decide (length <= 80) then 64
  else if bool_decide (length <= 120) then 56
  else if bool_decide (length <= 160) then 48
  else 40.

(** A reply of the upload host or of the webhook: the promise rejects, or a
    response arrives with its [ok] flag and, for the upload host, the
    [secure_url] of its JSON body ([None] when the body cannot be read). *)
Inductive HttpReply : Type :=
| HttpRejects
| HttpResponse (ok : bool) (secure_url : option jsstring).

Record WebhookPayload : Type := {
  payload_headline : option jsstring;
  payload_imageUrl : jsstring;
  payload_summary : option jsstring;
  payload_newsLink : jsstring;
  payload_status : jsstring
}.

(** The answers of the outside world while one category is processed. *)
Record World : Type := {
  fetchNews : jsstring -> NewsFetch;
  generateContent : jsstring -> Completion (option jsstring);
  fetchImage : jsstring -> ImageFetch;
  generateImages : option jsstring -> ImageGeneration;
  fonts : Completion unit;
  render : list HeadlinePart -> nat -> jsstring -> Completion jsstring;
  cloudinary : jsstring -> HttpReply;
  webhook : WebhookPayload -> HttpReply
}.

(** [composeFinalImage]: the three fonts are fetched, the headline is
    segmented and sized, the layout is rendered to PNG bytes by the
    libraries ([render]) and wrapped in a data URL.  An [undefined] headline
    throws when its [split] or its [length] is read. *)
Definition composeFinalImage (analysis : GeminiAnalysisResult) (mainImageSrc : jsstring)
    (w : World) : option (Completion jsstring) :=
  match fonts w with
  | Throws e => Some (Throws e)
  | Returns _ =>
      match headline analysis with
      | None =>
          if noHighlighting (highlightWords analysis) then Some (Throws TypeError)
          else match new_RegExp (highlightPattern (highlightWords analysis)) with
               | PatternNotModelled => None
               | PatternSyntaxError => Some (Throws SyntaxError)
               | Pattern _ _ => Some (Throws TypeError)
               end
      | Some h =>
          match splitHeadlineForHighlighting h (highlightWords analysis) with
          | None => None
          | Some (Throws e) => Some (Throws e)
          | Some (Returns headlineParts) =>
              let fontSize := getDynamicFontSize h in
              match render w headlineParts fontSize mainImageSrc with
              | Throws e => Some (Throws e)
              | Returns pngBuffer =>
                  Some (Returns (dataUrl (lit "image/png") (btoa pngBuffer)))
              end
          end
      end
  end.

Definition uploadToCloudinary (imageBase64 : jsstring) (w : World) : Completion jsstring :=
  match cloudinary w imageBase64 with
  | HttpRejects => Throws Rejected
  | HttpResponse false _ => Throws CloudinaryUploadFailed
  | HttpResponse true (Some url) => Returns url
  | HttpResponse true None => Throws Rejected
  end.

Definition sendToWebhook (analysis : GeminiAnalysisResult) (imageUrl : jsstring)
    (article : NewsArticle) (w : World) : Completion unit :=
  let payload := {| payload_headline := headline analysis;
                    payload_imageUrl := imageUrl;
                    payload_summary := caption analysis;
                    payload_newsLink := link article;
                    payload_status := lit "Queue" |} in
  match webhook w payload with
  | HttpRejects => Throws Rejected
  | HttpResponse false _ => Throws WebhookFailed
  | HttpResponse true _ => Returns tt
  end.

(** ** The Batch Orchestrator: processNewsBatch *)

(** How the body of the loop ends for one category. *)
Inductive CategoryStatus : Type :=
| SkippedNoArticles
| SkippedIrrelevant
| SkippedNoImage
| Posted (imageUrl : jsstring)
| Failed (e : Error)
| BeyondModel.   (* the headline pattern lies outside the modelled fragment *)

(** What one round of the loop did: the set before, the articles given to
    the model, the article chosen, the end of the round and the set
    after. *)
Record CategoryReport : Type := {
  reportCategory : NewsCategory;
  usedBefore : gset jsstring;
  offered : list NewsArticle;
  chosen : option NewsArticle;
  categoryStatus : CategoryStatus;
  usedAfter : gset jsstring
}.

(** Steps 5 to 8, after the chosen link has been added to the set. *)
Definition publishChosen (w : World) (analysisResult : GeminiAnalysisResult)
    (chosenArticle : NewsArticle) : CategoryStatus :=
  match prepareMainImage chosenArticle (imagePrompt analysisResult)
          (fetchImage w) (generateImages w) with
  | Throws e => Failed e
  | Returns None => SkippedNoImage
  | Returns (Some mainImageSrc) =>
      match composeFinalImage analysisResult mainImageSrc w with
      | None => BeyondModel
      | Some (Throws e) => Failed e
      | Some (Returns finalImageBase64) =>
          match uploadToCloudinary finalImageBase64 w with
          | Throws e => Failed e
          | Returns cloudinaryUrl =>
              match sendToWebhook analysisResult cloudinaryUrl chosenArticle w with
              | Throws e => Failed e
              | Returns _ => Posted cloudinaryUrl
              end
          end
      end
  end.

(** The body of [for (const category of NEWS_CATEGORIES)], with its
    [try]/[catch]. *)
Definition processCategory (w : World) (usedArticleUrls : gset jsstring)
    (category : NewsCategory) : CategoryReport :=
  let report offered chosen status after :=
    {| reportCategory := category; usedBefore := usedArticleUrls;
       offered := offered; chosen := chosen; categoryStatus := status;
       usedAfter := after |} in
  match fetchNewsForCategory (fetchNews w) category usedArticleUrls with
  | Throws e => report [] None (Failed e) usedArticleUrls
  | Returns articles =>
      if bool_decide (length articles = 0)
      then report articles None SkippedNoArticles usedArticleUrls
      else
        match analyzeArticlesWithGemini articles (generateContent w) with
        | Throws e => report articles None (Failed e) usedArticleUrls
        | Returns None => report articles None SkippedIrrelevant usedArticleUrls
        | Returns (Some analysisResult) =>
            match chosenArticleAt articles (chosenId analysisResult) with
            | None => report articles None (Failed TypeError) usedArticleUrls
            | Some chosenArticle =>
                report articles (Some chosenArticle)
                  (publishChosen w analysisResult chosenArticle)
                  ({[ link chosenArticle ]} ∪ usedArticleUrls)
            end
        end
  end.

Fixpoint runCategories (world : NewsCategory -> World) (usedArticleUrls : gset jsstring)
    (categories : list NewsCategory) : list CategoryReport :=
  match categories with
  | [] => []
  | category :: categories' =>
      let r := processCategory (world category) usedArticleUrls category in
      r :: runCategories world (usedAfter r) categories'
  end.

(** The set starts empty; [world] gives the answers of the outside world
    during each category. *)
Definition processNewsBatch (world : NewsCategory -> World) : list CategoryReport :=
  runCategories world ∅ NEWS_CATEGORIES.

Definition chosenLinks (reports : list CategoryReport) : list jsstring :=
  omap (fun r => link <$> chosen r) reports.

(** ** Sample data for the examples *)

Definition sampleArticle (ttl lnk : string) (time : Z) : NewsArticle :=
  {| article_id := lit lnk; title := lit ttl; link := lit lnk;
     description := Some (lit "A short description.");
     content := None; pubDate := time;
     image_url := Some (lit "https://img.example/" ++ lit lnk);
     source_id := lit "thedailystar" |}.

Definition okResponse (articles : list NewsArticle) : NewsFetch :=
  NewsResponse true (lit "OK")
    (Some {| status := lit "success"; results := Some articles |}).

(** A world where the news source answers every category with [articles],
    the text model answers [reply], the article's image cannot be fetched,
    one image is generated and everything downstream succeeds. *)
Definition sampleWorld (articles : list NewsArticle) (reply : jsstring) : World :=
  {| fetchNews := fun _ => okResponse articles;
     generateContent := fun _ => Returns (Some reply);
     fetchImage := fun _ => ImageResponse false None None;
     generateImages := fun _ => GenerationResponse (Some [lit "iVBORw0KGgo="]);
     fonts := Returns tt;
     render := fun _ _ _ => Returns (lit "PNG");
     cloudinary := fun _ => HttpResponse true (Some (lit "https://cdn.example/1.png"));
     webhook := fun _ => HttpResponse true None |}.

Definition portArticle : NewsArticle :=
  sampleArticle "Port work starts" "https://news.example/port" 300.

Definition riverArticle : NewsArticle :=
  sampleArticle "River levels rise" "https://news.example/river" 200.

Definition cricketArticle : NewsArticle :=
  sampleArticle "Cricket final" "https://news.example/cricket" 100.

(** A later copy of [portArticle]: the same link, another title. *)
Definition portArticleUpdated : NewsArticle :=
  sampleArticle "Port work starts (updated)" "https://news.example/port" 300.

(** The news source answers the politics request with [portArticle], the
    crime request with [portArticleUpdated] and the others with nothing. *)
Definition twoCopiesFetch (cat : jsstring) : NewsFetch :=
  if str_eqb cat (lit "politics") then okResponse [portArticle]
  else if str_eqb cat (lit "crime") then okResponse [portArticleUpdated]
  else okResponse [].

(** The politics request is answered with status 500 and an error body;
    the other requests succeed. *)
Definition politicsDownFetch (cat : jsstring) : NewsFetch :=
  if str_eqb cat (lit "politics") then
    NewsResponse false (lit "Internal Server Error")
      (Some {| status := lit "error"; results := None |})
  else if str_eqb cat (lit "crime") then okResponse [riverArticle]
  else if str_eqb cat (lit "business") then okResponse [cricketArticle]
  else okResponse [].

(** A reply with two of the six keys. *)
Definition twoKeyReply : jsstring :=
  lit "CHOSEN_ID: 1
HIGHLIGHT_WORDS: Port".

(** A reply with every key but SOURCE_NAME. *)
Definition noSourceReply : jsstring :=
  lit "CHOSEN_ID: 1
HEADLINE: Dhaka Port Expansion Begins
HIGHLIGHT_WORDS: Port Expansion
IMAGE_PROMPT: Cranes over a harbour at dawn
CAPTION: Work begins.".

(** Complete replies whose CHOSEN_ID is not a number, and is past the end of
    the candidates. *)
Definition replyWithId (id : string) : jsstring :=
  lit "CHOSEN_ID: " ++ lit id ++ lit "
HEADLINE: Dhaka Port Expansion Begins
HIGHLIGHT_WORDS: Port Expansion
IMAGE_PROMPT: Cranes over a harbour at dawn
CAPTION: Work begins.
SOURCE_NAME: thedailystar".

Definition politics : NewsCategory := mkCategory "Politics" "politics".
Definition trending : NewsCategory := mkCategory "Trending" "top".

Definition emptyHighlightReply : jsstring :=
  lit "CHOSEN_ID: 1
HEADLINE: Dhaka Port Expansion Begins
HIGHLIGHT_WORDS:
IMAGE_PROMPT: Cranes over a harbour at dawn
CAPTION: Work begins.
SOURCE_NAME: thedailystar".

(** The reports of a run are chained: each round starts from the set the
    round before left. *)
Fixpoint chained (used : gset jsstring) (reports : list CategoryReport) : Prop :=
  match reports with
  | [] => True
  | r :: reports' => usedBefore r = used /\ chained (usedAfter r) reports'
  end.

(** *** Segmentation over the language's own pattern engine

    [new RegExp] and the matcher behind [split] are built into the
    language.  Here they are a collaborator: [segmentHeadlineWith] is
    [splitHeadlineForHighlighting] with the engine as an argument, so that
    it speaks of every pattern and not only of the fragment modelled
    above. *)

(** A matcher that must start at the current position: from the text before
    the position and the text from the position on, it gives the text left
    after the match and the captures, or fails. *)
Definition Matcher : Type := jsstring -> jsstring -> option (jsstring * captures).

(** The constructor [new RegExp(source, 'gi')]: [None] when it throws a
    SyntaxError. *)
Definition RegExpEngine : Type := jsstring -> option Matcher.

(** The loop of [splitLoop], with [seen] the text before the position
    tried. *)
Fixpoint splitLoopWith (exec : Matcher) (fuel : nat) (seen piece rest : jsstring)
  : option captures :=
  match fuel with
  | O => None
  | S fuel' =>
      match rest with
      | [] => Some [Some piece]
      | c :: rest' =>
          match exec seen rest with
          | None => splitLoopWith exec fuel' (seen ++ [c]) (piece ++ [c]) rest'
          | Some (after, caps) =>
              if bool_decide (length after = length piece + length rest)
              then splitLoopWith exec fuel' (seen ++ [c]) (piece ++ [c]) rest'
              else (fun tail => Some piece :: caps ++ tail)
                     <$> splitLoopWith exec fuel'
                           (seen ++ take (length rest - length after) rest) [] after
          end
      end
  end.

Definition String_split_with (exec : Matcher) (S : jsstring) : option captures :=
  match S with
  | [] =>
      match exec [] [] with
      | Some _ => Some []
      | None => Some [Some []]
      end
  | _ :: _ => splitLoopWith exec (2 * length S + 2) [] [] S
  end.

(** The result is [None] only if the loop runs out of fuel, which a matcher
    whose matches end inside the text never causes. *)
Definition segmentHeadlineWith (engine : RegExpEngine) (headline : jsstring)
    (highlightWords : list jsstring) : option (Completion (list HeadlinePart)) :=
  if noHighlighting highlightWords then
    Some (Returns [ {| text := headline; highlighted := false |} ])
  else
    match engine (highlightPattern highlightWords) with
    | None => Some (Throws SyntaxError)
    | Some exec =>
        match String_split_with exec headline with
        | None => None
        | Some parts => Some (Returns (map (markPart highlightWords) (truthyParts parts)))
        end
    end.

(** The engine of the modelled fragment.  Outside the fragment it is not the
    language's engine: it refuses the pattern. *)
Definition modelledEngine : RegExpEngine :=
  fun source =>
    match new_RegExp source with
    | Pattern r groups => Some (fun _ s => execAt r groups s)
    | PatternSyntaxError | PatternNotModelled => None
    end.

Definition backslash : ascii := ch 92.

Definition opensGroup (c : ascii) : bool := bool_decide (c = "("%char).

Definition isParenthesis (c : ascii) : bool :=
  opensGroup c || bool_decide (c = ")"%char).

(** Where a reader of the pattern source stands: in the open, just after a
    backslash, inside a character class, or just after a backslash inside a
    class.  A backslash takes the next code unit with it; a class runs from
    a bracket in the open to the next closing bracket that no backslash
    takes. *)
Inductive ScanState : Type :=
| InTheOpen
| Escaped
| InClass
| InClassEscaped.

Definition scanStep (st : ScanState) (c : ascii) : ScanState :=
  match st with
  | InTheOpen =>
      if bool_decide (c = backslash) then Escaped
      else if bool_decide (c = "["%char) then InClass
      else InTheOpen
  | Escaped => InTheOpen
  | InClass =>
      if bool_decide (c = backslash) then InClassEscaped
      else if bool_decide (c = "]"%char) then InTheOpen
      else InClass
  | InClassEscaped => InClass
  end.

(** Some parenthesis of [s] stands in the open, where it opens or closes a
    group. *)
Fixpoint hasGroupParenthesis (st : ScanState) (s : jsstring) : bool :=
  match s with
  | [] => false
  | c :: s' =>
      match st with
      | InTheOpen => isParenthesis c
      | Escaped | InClass | InClassEscaped => false
      end || hasGroupParenthesis (scanStep st c) s'
  end.

Definition beginsWithQuestionMark (s : jsstring) : bool :=
  match s with
  | c :: _ => bool_decide (c = "?"%char)
  | [] => false
  end.

(** The phrases leave the group that the worker writes around them as it
    is: joined by bars they put no parenthesis in the open, and they do not
    begin with a question mark (which would change the kind of the group
    just opened). *)
Definition keepsOuterGroup (highlightWords : list jsstring) : bool :=
  negb (hasGroupParenthesis InTheOpen (join (lit "|") highlightWords)) &&
  negb (beginsWithQuestionMark (join (lit "|") highlightWords)).


(** A phrase is plain when none of its code units is a syntax character
    other than the bar, so that it adds no group, escape, class, anchor or
    quantifier to the pattern. *)
Definition plainChar (c : ascii) : bool :=
  negb (isSyntaxCharacter c) || bool_decide (c = "|"%char).

Definition isPlainPhrase (phrase : jsstring) : bool := forallb plainChar phrase.

Fixpoint groupFree (r : regex) : bool :=
  match r with
  | REmpty | RChar _ => true
  | RSeq r1 r2 | RAlt r1 r2 => groupFree r1 && groupFree r2
  | RGroup _ _ => false
  end.

Definition groupFreeFrame (f : frame) : bool :=
  forallb groupFree (alternatives f) && forallb groupFree (terms f).

(** Every match of the pattern is its first capture and nothing else is
    captured. *)
Definition capturesWholeMatch (r : regex) (groups : nat) : Prop :=
  forall s after caps,
    execAt r groups s = Some (after, caps) ->
    exists m, s = m ++ after /\ caps = [Some m].

(** The phrase [w] occurs at the start of [s], ignoring case as the
    pattern does. *)
Definition occursAt (w s : jsstring) : Prop :=
  exists m rest, s = m ++ rest /\ map canonicalize m = map canonicalize w.

(** The input left after reading the literal [w] at the start of [s]. *)
Fixpoint matchLiteral (w s : jsstring) : option jsstring :=
  match w with
  | [] => Some s
  | c :: w' =>
      match s with
      | x :: s' =>
          if bool_decide (canonicalize x = canonicalize c) then matchLiteral w' s'
          else None
      | [] => None
      end
  end.

(** * Properties *)

(** ** Strings *)

Lemma trimStart_whitespace (pre s : jsstring) :
  forallb isWhiteSpace pre = true -> trimStart (pre ++ s) = trimStart s.
Proof.
  induction pre as [|c pre IH]; simpl; [done|].
  intros [Hc Hpre]%andb_prop. rewrite Hc. by apply IH.
Qed.

Lemma trimStart_fixed (c : ascii) (s : jsstring) :
  isWhiteSpace c = false -> trimStart (c :: s) = c :: s.
Proof. intros Hc. simpl. by rewrite Hc. Qed.

Lemma forallb_rev {A : Type} (p : A -> bool) (l : list A) :
  forallb p (rev l) = forallb p l.
Proof.
  induction l as [|a l IH]; simpl; [done|].
  rewrite forallb_app, IH. simpl. rewrite andb_true_r. apply andb_comm.
Qed.

(** White space around a word that neither starts nor ends with white space
    is what [trim] removes. *)
Lemma trim_surrounded (pre post middle : jsstring) (first last : ascii) :
  isWhiteSpace first = false ->
  isWhiteSpace last = false ->
  forallb isWhiteSpace pre = true ->
  forallb isWhiteSpace post = true ->
  trim (pre ++ (first :: middle ++ [last]) ++ post) = first :: middle ++ [last].
Proof.
  intros Hfirst Hlast Hpre Hpost. unfold trim, trimEnd.
  rewrite trimStart_whitespace by done.
  change ((first :: middle ++ [last]) ++ post)
    with (first :: ((middle ++ [last]) ++ post)).
  rewrite trimStart_fixed by done.
  change (first :: ((middle ++ [last]) ++ post))
    with ((first :: middle ++ [last]) ++ post).
  rewrite rev_app_distr.
  rewrite trimStart_whitespace by (by rewrite forallb_rev).
  change (first :: middle ++ [last]) with ((first :: middle) ++ [last]).
  rewrite rev_app_distr. change (rev [last]) with [last].
  change ([last] ++ rev (first :: middle)) with (last :: rev (first :: middle)).
  rewrite trimStart_fixed by done.
  change (last :: rev (first :: middle)) with (rev [last] ++ rev (first :: middle)).
  by rewrite <- rev_app_distr, rev_involutive.
Qed.

Lemma trim_IRRELEVANT (pre post : jsstring) :
  forallb isWhiteSpace pre = true ->
  forallb isWhiteSpace post = true ->
  trim (pre ++ lit "IRRELEVANT" ++ post) = lit "IRRELEVANT".
Proof.
  intros Hpre Hpost.
  by apply (trim_surrounded pre post (lit "RRELEVAN") "I"%char "T"%char).
Qed.

(** ** Dynamic font sizing *)

(** C7: the font size is a function of the headline's length alone; it is 72
    up to 50 code units, 64 up to 80, 56 up to 120, 48 up to 160 and 40
    beyond; a headline at least as long never gets a larger size. *)
Theorem getDynamicFontSize_steps (h1 h2 : jsstring) :
  (length h1 <= 50 -> getDynamicFontSize h1 = 72) /\
  (50 < length h1 <= 80 -> getDynamicFontSize h1 = 64) /\
  (80 < length h1 <= 120 -> getDynamicFontSize h1 = 56) /\
  (120 < length h1 <= 160 -> getDynamicFontSize h1 = 48) /\
  (160 < length h1 -> getDynamicFontSize h1 = 40) /\
  (length h1 = length h2 -> getDynamicFontSize h1 = getDynamicFontSize h2) /\
  (length h1 <= length h2 -> getDynamicFontSize h2 <= getDynamicFontSize h1).
Proof.
  unfold getDynamicFontSize.
  repeat split; intros; repeat case_bool_decide; lia.
Qed.

Lemma getDynamicFontSize_steps_witness :
  getDynamicFontSize (replicate 50 "a"%char) = 72 /\
  getDynamicFontSize (replicate 51 "a"%char) = 64 /\
  getDynamicFontSize (replicate 51 "a"%char) <= getDynamicFontSize (replicate 50 "a"%char).
Proof.
  pose proof (getDynamicFontSize_steps (replicate 50 "a"%char) (replicate 51 "a"%char))
    as (H50 & _ & _ & _ & _ & _ & Hmono).
  pose proof (getDynamicFontSize_steps (replicate 51 "a"%char) [])
    as (_ & H51 & _).
  split; [apply H50; vm_compute; lia|].
  split; [apply H51; vm_compute; lia|].
  apply Hmono. vm_compute. lia.
Defined.

(** ** The sentinel *)

Lemma interpretReply_sentinel (raw : jsstring) :
  trim raw = lit "IRRELEVANT" -> interpretReply (Some raw) = Returns None.
Proof. intros Htrim. unfold interpretReply. by rewrite Htrim. Qed.

(** C6: a reply that trims to the sentinel, whatever white space surrounds
    it, gives the no-relevant-article outcome; the key parser, which would
    have failed on that text, is not what decides; the category is skipped
    with nothing chosen and the set of used links as it was. *)
Theorem sentinel_precedence (w : World) (used : gset jsstring)
    (category : NewsCategory) (articles : list NewsArticle) (raw : jsstring) :
  trim raw = lit "IRRELEVANT" ->
  fetchNewsForCategory (fetchNews w) category used = Returns articles ->
  articles <> [] ->
  generateContent w (buildGeminiPrompt articles) = Returns (Some raw) ->
  interpretReply (Some raw) = Returns None /\
  parseAnalysis (trim raw) = Throws (GeminiParseFailed (trim raw)) /\
  analyzeArticlesWithGemini articles (generateContent w) = Returns None /\
  categoryStatus (processCategory w used category) = SkippedIrrelevant /\
  chosen (processCategory w used category) = None /\
  usedAfter (processCategory w used category) = used /\
  (forall pre post : jsstring,
     forallb isWhiteSpace pre = true -> forallb isWhiteSpace post = true ->
     interpretReply (Some (pre ++ lit "IRRELEVANT" ++ post)) = Returns None).
Proof.
  intros Htrim Hfetch Hne Hreply.
  assert (Hint : interpretReply (Some raw) = Returns None)
    by (by apply interpretReply_sentinel).
  assert (Han : analyzeArticlesWithGemini articles (generateContent w) = Returns None)
    by (unfold analyzeArticlesWithGemini; by rewrite Hreply).
  split; [done|]. split; [rewrite Htrim; by vm_compute|]. split; [done|].
  unfold processCategory. rewrite Hfetch.
  rewrite bool_decide_eq_false_2 by (by destruct articles).
  rewrite Han. simpl. repeat split.
  intros pre post Hpre Hpost. apply interpretReply_sentinel. by apply trim_IRRELEVANT.
Qed.

Lemma sentinel_precedence_witness :
  let w := sampleWorld [portArticle] (lit "  IRRELEVANT
") in
  categoryStatus (processCategory w {[ lit "https://news.example/river" ]} politics)
    = SkippedIrrelevant /\
  usedAfter (processCategory w {[ lit "https://news.example/river" ]} politics)
    = {[ lit "https://news.example/river" ]}.
Proof.
  intros w.
  pose proof (sentinel_precedence w {[ lit "https://news.example/river" ]} politics
                [portArticle] (lit "  IRRELEVANT
")) as H.
  destruct H as (_ & _ & _ & Hstatus & _ & Hused & _).
  - by vm_compute.
  - by vm_compute.
  - done.
  - done.
  - split; [exact Hstatus | exact Hused].
Defined.

(** ** The Image Resolver *)

Lemma fetchOriginalImage_ok (article : NewsArticle) (fetch : jsstring -> ImageFetch)
    (url : jsstring) (contentType : option jsstring) (bytes : jsstring) :
  image_url article = Some url -> truthy url = true ->
  fetch url = ImageResponse true contentType (Some bytes) ->
  fetchOriginalImage article fetch =
    Some (dataUrl (if opt_truthy contentType then default [] contentType
                   else lit "image/png") (btoa bytes)).
Proof.
  intros Hurl Htruthy Hfetch. unfold fetchOriginalImage.
  by rewrite Hurl, Htruthy, Hfetch.
Qed.

Lemma fetchOriginalImage_failed (article : NewsArticle) (fetch : jsstring -> ImageFetch)
    (url : jsstring) :
  image_url article = Some url ->
  (fetch url = ImageFetchRejects \/
   exists contentType bytes, fetch url = ImageResponse false contentType bytes) ->
  fetchOriginalImage article fetch = None.
Proof.
  intros Hurl Hfail. unfold fetchOriginalImage. rewrite Hurl.
  destruct (truthy url); [|done].
  destruct Hfail as [-> | (contentType & bytes & ->)]; done.
Qed.

(** C9: when the article's image is fetched, it is returned as a data URL
    with its content type; when the fetch rejects or the status is not a
    success, the result is that of the generation called with the image
    prompt: the first generated image as a PNG data URL, and [null], not an
    exception, when the generation gives no image. *)
Theorem prepareMainImage_resolution (article : NewsArticle)
    (geminiPrompt : option jsstring) (fetch : jsstring -> ImageFetch)
    (generateImages : option jsstring -> ImageGeneration) (url : jsstring) :
  image_url article = Some url ->
  truthy url = true ->
  (forall contentType bytes,
     fetch url = ImageResponse true contentType (Some bytes) ->
     prepareMainImage article geminiPrompt fetch generateImages =
       Returns (Some (dataUrl (if opt_truthy contentType then default [] contentType
                               else lit "image/png") (btoa bytes)))) /\
  ((fetch url = ImageFetchRejects \/
    exists contentType bytes, fetch url = ImageResponse false contentType bytes) ->
   (forall image images,
      generateImages geminiPrompt = GenerationResponse (Some (image :: images)) ->
      prepareMainImage article geminiPrompt fetch generateImages =
        Returns (Some (dataUrl (lit "image/png") image))) /\
   (generateImages geminiPrompt = GenerationResponse (Some []) \/
    generateImages geminiPrompt = GenerationResponse None ->
    prepareMainImage article geminiPrompt fetch generateImages = Returns None)).
Proof.
  intros Hurl Htruthy. split.
  - intros contentType bytes Hfetch. unfold prepareMainImage.
    by rewrite (fetchOriginalImage_ok _ _ _ _ _ Hurl Htruthy Hfetch).
  - intros Hfail. unfold prepareMainImage.
    rewrite (fetchOriginalImage_failed _ _ _ Hurl Hfail). split.
    + intros image images Hgen. by rewrite Hgen.
    + intros [Hgen | Hgen]; by rewrite Hgen.
Qed.

Lemma prepareMainImage_resolution_witness :
  prepareMainImage portArticle (Some (lit "A gavel on a table"))
    (fun _ => ImageResponse false None None)
    (fun _ => GenerationResponse (Some [])) = Returns None /\
  prepareMainImage portArticle (Some (lit "A gavel on a table"))
    (fun _ => ImageResponse true (Some (lit "image/jpeg")) (Some (lit "Man")))
    (fun _ => GenerationRejects)
    = Returns (Some (lit "data:image/jpeg;base64,TWFu")).
Proof.
  split.
  - apply (prepareMainImage_resolution portArticle (Some (lit "A gavel on a table"))
             (fun _ => ImageResponse false None None)
             (fun _ => GenerationResponse (Some []))
             (lit "https://img.example/https://news.example/port")).
    + reflexivity.
    + reflexivity.
    + right. by exists None, None.
    + by left.
  - pose proof (prepareMainImage_resolution portArticle (Some (lit "A gavel on a table"))
             (fun _ => ImageResponse true (Some (lit "image/jpeg")) (Some (lit "Man")))
             (fun _ => GenerationRejects)
             (lit "https://img.example/https://news.example/port")
             eq_refl eq_refl) as [Hfetched _].
    exact (Hfetched (Some (lit "image/jpeg")) (lit "Man") eq_refl).
Defined.

(** ** An empty highlight field *)

Lemma parseAnalysis_words (text words : jsstring) :
  parseLines text !! lit "HIGHLIGHT_WORDS" = Some words ->
  exists r, parseAnalysis text = Returns r /\
            highlightWords r = map trim (splitOn ","%char words).
Proof. intros Hw. unfold parseAnalysis. rewrite Hw. eauto. Qed.

(** C10: when the parsed value of HIGHLIGHT_WORDS is the empty string, the
    parser returns a result whose highlight list is the one-element list
    holding the empty string; segmentation with a list whose first entry is
    empty, or with the empty list, returns the whole headline as one segment
    that is not highlighted, and throws nothing. *)
Theorem empty_highlight_disables (text headline : jsstring) (others : list jsstring) :
  (parseLines text !! lit "HIGHLIGHT_WORDS" = Some [] ->
   exists r, parseAnalysis text = Returns r /\ highlightWords r = [[]] /\
             splitHeadlineForHighlighting headline (highlightWords r)
               = Some (Returns [ {| text := headline; highlighted := false |} ])) /\
  splitHeadlineForHighlighting headline ([] :: others)
    = Some (Returns [ {| text := headline; highlighted := false |} ]) /\
  splitHeadlineForHighlighting headline []
    = Some (Returns [ {| text := headline; highlighted := false |} ]).
Proof.
  split; [|done].
  intros Hw. destruct (parseAnalysis_words _ _ Hw) as (r & Hr & Hwords).
  exists r. simpl in Hwords. by rewrite Hwords.
Qed.

Lemma empty_highlight_disables_witness :
  exists r, parseAnalysis emptyHighlightReply = Returns r /\ highlightWords r = [[]] /\
            splitHeadlineForHighlighting (lit "Dhaka Port Expansion Begins")
              (highlightWords r)
              = Some (Returns [ {| text := lit "Dhaka Port Expansion Begins";
                                   highlighted := false |} ]).
Proof.
  pose proof (empty_highlight_disables emptyHighlightReply
                (lit "Dhaka Port Expansion Begins") []) as [Hparsed _].
  apply Hparsed. by vm_compute.
Defined.

(** ** Decimal numerals *)

Lemma to_uint_nonnil (n : nat) : Nat.to_uint n <> Decimal.Nil.
Proof.
  rewrite <- (DecimalNat.Unsigned.of_to n) at 1.
  rewrite DecimalNat.Unsigned.to_of. apply DecimalFacts.unorm_nonnil.
Qed.

Ltac eval_digit :=
  match goal with
  | |- context [digitValue ?c] =>
      let v := eval vm_compute in (digitValue c) in
      change (digitValue c) with v
  end.

Lemma parseDigits_uint (d : Decimal.uint) :
  forall acc : Z,
    (0 <= acc)%Z ->
    parseDigits (Some acc) (lit (NilEmpty.string_of_uint d))
      = Some (Z.of_nat (Nat.of_uint_acc d (Z.to_nat acc))).
Proof.
  induction d as [|d IH|d IH|d IH|d IH|d IH|d IH|d IH|d IH|d IH|d IH];
    intros acc Hacc;
    [simpl; f_equal; lia| | | | | | | | | |];
    cbn [NilEmpty.string_of_uint lit list_ascii_of_string parseDigits];
    eval_digit; cbv iota beta; change (default 0%Z (Some acc)) with acc;
    change (list_ascii_of_string (NilEmpty.string_of_uint d))
      with (lit (NilEmpty.string_of_uint d));
    rewrite IH by lia;
    do 2 f_equal; cbn [Nat.of_uint_acc]; rewrite Nat.tail_mul_spec; f_equal; lia.
Qed.

(** An index printed by the prompt reads back as itself. *)
Lemma parseInt_String_of_nat (n : nat) :
  parseInt (Some (String_of_nat n)) = Some (Z.of_nat n).
Proof.
  unfold String_of_nat.
  pose proof (to_uint_nonnil n) as Hnil.
  pose proof (DecimalNat.Unsigned.of_to n) as Hof. unfold Nat.of_uint in Hof.
  destruct (Nat.to_uint n) as [|d|d|d|d|d|d|d|d|d|d]; [done| | | | | | | | | |];
    unfold parseInt;
    cbn [NilEmpty.string_of_uint lit list_ascii_of_string trimStart];
    (match goal with
     | |- context [isWhiteSpace ?c] => change (isWhiteSpace c) with false
     end);
    cbv iota;
    rewrite !bool_decide_eq_false_2 by done;
    cbn [parseDigits]; eval_digit; cbv iota beta;
    change (default 0%Z None) with 0%Z;
    change (list_ascii_of_string (NilEmpty.string_of_uint d))
      with (lit (NilEmpty.string_of_uint d));
    rewrite parseDigits_uint by lia;
    do 2 f_equal; rewrite <- Hof; cbn [Nat.of_uint_acc]; f_equal.
Qed.

(** ** Candidate ordering *)

Lemma chosenArticleAt_position (articles : list NewsArticle) (k : nat) :
  1 <= k -> chosenArticleAt articles (Some (Z.of_nat k)) = articles !! (k - 1).
Proof.
  intros Hk. unfold chosenArticleAt.
  destruct (Z.leb_spec 0 (Z.of_nat k - 1)) as [_|Hneg]; [|lia].
  f_equal. lia.
Qed.

(** ** Cross-category exclusivity *)

Lemma fetchNewsForCategory_unused (fetch : jsstring -> NewsFetch)
    (category : NewsCategory) (used : gset jsstring) (articles : list NewsArticle)
    (a : NewsArticle) :
  fetchNewsForCategory fetch category used = Returns articles ->
  a ∈ articles -> link a ∉ used.
Proof.
  unfold fetchNewsForCategory.
  destruct (fetchRawArticles fetch category) as [raw|e]; [|done].
  intros [= <-] Hin%list_elem_of_In.
  apply filter_In in Hin as [_ Hunused]. unfold isUnused in Hunused.
  by apply negb_true_iff, bool_decide_eq_false in Hunused.
Qed.

Lemma chosenArticleAt_elem (articles : list NewsArticle) (chosenId : option Z)
    (a : NewsArticle) :
  chosenArticleAt articles chosenId = Some a -> a ∈ articles.
Proof.
  unfold chosenArticleAt. destruct chosenId as [z|]; [|done].
  destruct (0 <=? z - 1)%Z; [|done]. apply list_elem_of_lookup_2.
Qed.

(** What one round does to the set, whatever the world answers. *)
Lemma processCategory_step (w : World) (used : gset jsstring) (category : NewsCategory) :
  let r := processCategory w used category in
  usedBefore r = used /\
  (forall a, a ∈ offered r -> link a ∉ used) /\
  match chosen r with
  | Some a => a ∈ offered r /\ usedAfter r = {[ link a ]} ∪ used
  | None => usedAfter r = used
  end.
Proof.
  unfold processCategory.
  destruct (fetchNewsForCategory (fetchNews w) category used) as [articles|e] eqn:Hfetch;
    simpl; [|split; [done|split; [by intros a Ha%elem_of_nil|done]]].
  assert (Hoff : forall a, a ∈ articles -> link a ∉ used)
    by (intros a; by apply fetchNewsForCategory_unused with (1 := Hfetch)).
  case_bool_decide; simpl; [done|].
  destruct (analyzeArticlesWithGemini articles (generateContent w)) as [[res|]|e];
    simpl; [|done|done].
  destruct (chosenArticleAt articles (chosenId res)) as [a|] eqn:Hchosen; simpl; [|done].
  split; [done|]. split; [done|]. split; [|done].
  by apply chosenArticleAt_elem with (1 := Hchosen).
Qed.

Lemma runCategories_fresh (world : NewsCategory -> World) (categories : list NewsCategory) :
  forall used l,
    l ∈ chosenLinks (runCategories world used categories) -> l ∉ used.
Proof.
  induction categories as [|c cs IH]; intros used l; simpl.
  - by intros ?%elem_of_nil.
  - pose proof (processCategory_step (world c) used c) as (_ & Hoff & Hch).
    unfold chosenLinks. simpl. fold (chosenLinks (runCategories world
      (usedAfter (processCategory (world c) used c)) cs)).
    destruct (chosen (processCategory (world c) used c)) as [a|]; simpl.
    + destruct Hch as [Ha Hafter]. intros [->|Hl]%elem_of_cons; [by apply Hoff|].
      apply IH in Hl. rewrite Hafter in Hl.
      intros Hused. apply Hl, elem_of_union. by right.
    + rewrite Hch. apply IH.
Qed.

Lemma runCategories_NoDup (world : NewsCategory -> World) (categories : list NewsCategory) :
  forall used, NoDup (chosenLinks (runCategories world used categories)).
Proof.
  induction categories as [|c cs IH]; intros used; simpl; [constructor|].
  pose proof (processCategory_step (world c) used c) as (_ & _ & Hch).
  unfold chosenLinks. simpl. fold (chosenLinks (runCategories world
    (usedAfter (processCategory (world c) used c)) cs)).
  destruct (chosen (processCategory (world c) used c)) as [a|]; simpl; [|apply IH].
  destruct Hch as [_ Hafter]. constructor; [|apply IH].
  intros Hl%runCategories_fresh. rewrite Hafter in Hl.
  apply Hl, elem_of_union. left. by apply elem_of_singleton.
Qed.

Lemma runCategories_invariants (world : NewsCategory -> World)
    (categories : list NewsCategory) :
  forall used,
    let reports := runCategories world used categories in
    chained used reports /\
    Forall (fun r => usedBefore r ⊆ usedAfter r /\
                     usedAfter r = match chosen r with
                                   | Some a => {[ link a ]} ∪ usedBefore r
                                   | None => usedBefore r
                                   end /\
                     forall a, a ∈ offered r -> link a ∉ usedBefore r) reports.
Proof.
  induction categories as [|c cs IH]; intros used; simpl; [by split|].
  pose proof (processCategory_step (world c) used c) as (Hbefore & Hoff & Hch).
  destruct (IH (usedAfter (processCategory (world c) used c))) as [Hchain Hall].
  split; [by split|]. constructor; [|done].
  rewrite Hbefore.
  destruct (chosen (processCategory (world c) used c)) as [a|].
  - destruct Hch as [_ ->]. split; [apply union_subseteq_r|]. by split.
  - rewrite Hch. by split.
Qed.

Lemma processCategory_category (w : World) (used : gset jsstring) (c : NewsCategory) :
  reportCategory (processCategory w used c) = c.
Proof.
  unfold processCategory.
  destruct (fetchNewsForCategory (fetchNews w) c used) as [articles|e]; [|done].
  case_bool_decide; [done|].
  destruct (analyzeArticlesWithGemini articles (generateContent w)) as [[res|]|e];
    [|done|done].
  by destruct (chosenArticleAt articles (chosenId res)).
Qed.

Lemma runCategories_categories (world : NewsCategory -> World)
    (categories : list NewsCategory) :
  forall used, map reportCategory (runCategories world used categories) = categories.
Proof.
  induction categories as [|c cs IH]; intros used; simpl; [done|].
  by rewrite processCategory_category, IH.
Qed.

(** C5: in a batch run, whatever the outside world answers, the set of used
    links starts empty and is handed from each category to the next; a
    round never removes a link and adds exactly the link of the article it
    chose; the articles offered to the model in a round have none of the
    links already in the set; and no link is chosen twice. *)
Theorem cross_category_exclusivity (world : NewsCategory -> World) :
  let reports := processNewsBatch world in
  map reportCategory reports = NEWS_CATEGORIES /\
  chained ∅ reports /\
  Forall (fun r => usedBefore r ⊆ usedAfter r /\
                   usedAfter r = match chosen r with
                                 | Some a => {[ link a ]} ∪ usedBefore r
                                 | None => usedBefore r
                                 end /\
                   forall a, a ∈ offered r -> link a ∉ usedBefore r) reports /\
  NoDup (chosenLinks reports).
Proof.
  intros reports. subst reports. unfold processNewsBatch.
  split; [apply runCategories_categories|].
  destruct (runCategories_invariants world NEWS_CATEGORIES ∅) as [Hchain Hall].
  split; [exact Hchain|]. split; [exact Hall|].
  apply runCategories_NoDup.
Qed.

(** A run in which the first two categories choose: the news source offers
    the same two articles to every category and the model always answers
    with the first candidate. *)
Lemma cross_category_exclusivity_witness :
  let reports :=
    processNewsBatch (fun _ => sampleWorld [portArticle; riverArticle] (replyWithId "1")) in
  chosenLinks reports = [link portArticle; link riverArticle] /\
  NoDup (chosenLinks reports).
Proof.
  intros reports. split; [by vm_compute|].
  apply (cross_category_exclusivity
           (fun _ => sampleWorld [portArticle; riverArticle] (replyWithId "1"))).
Defined.

(** ** Deduplication by link *)

Section MapModel.
Context {V : Type}.
Implicit Types (m : list (jsstring * V)) (k : jsstring) (v : V).

Lemma Map_set_keys k v m :
  map fst (Map_set k v m) = if decide (k ∈ map fst m) then map fst m else map fst m ++ [k].
Proof.
  induction m as [|[k' v'] m IH].
  - by rewrite decide_False by apply not_elem_of_nil.
  - cbn [Map_set]. case_bool_decide as Hk.
    + subst k'. by rewrite decide_True by (cbn; left).
    + cbn [map fst]. rewrite IH. destruct (decide (k ∈ map fst m)) as [Hin|Hin].
      * by rewrite decide_True by (by right).
      * rewrite decide_False; [done|]. intros [->|?]%elem_of_cons; done.
Qed.

Lemma Map_set_NoDup k v m : NoDup (map fst m) -> NoDup (map fst (Map_set k v m)).
Proof.
  intros Hnd. rewrite Map_set_keys. case_decide as Hin; [done|].
  apply NoDup_app. split; [done|]. split; [|apply NoDup_singleton].
  intros x Hx ->%list_elem_of_singleton. done.
Qed.

Lemma Map_set_elem k v m k' v' :
  NoDup (map fst m) ->
  (k', v') ∈ Map_set k v m <-> (k' = k /\ v' = v) \/ (k' <> k /\ (k', v') ∈ m).
Proof.
  induction m as [|[k0 v0] m IH]; simpl; intros Hnd.
  - rewrite list_elem_of_singleton. split.
    + intros [= -> ->]. by left.
    + intros [[-> ->]|[_ H]]; [done|by apply elem_of_nil in H].
  - apply NoDup_cons in Hnd as [Hk0 Hnd]. case_bool_decide as Hk.
    + subst k0. rewrite !elem_of_cons. split.
      * intros [[= -> ->]|Hin]; [by left|]. right. split; [|by right].
        intros ->. apply Hk0. apply list_elem_of_fmap. by exists (k, v').
      * intros [[-> ->]|[Hne [[= ? ?]|Hin]]]; [by left|done|by right].
    + rewrite !elem_of_cons, IH by done. split.
      * intros [[= -> ->]|[[-> ->]|[Hne Hin]]]; [|by left|].
        -- right. split; [done|by left].
        -- right. split; [done|by right].
      * intros [[-> ->]|[Hne [[= -> ->]|Hin]]]; [right; by left|by left|].
        right. right. done.
Qed.
End MapModel.

(** The article [a] is the last of [all] with its link. *)
Definition lastWithItsLink (all : list NewsArticle) (a : NewsArticle) : Prop :=
  exists before after, all = before ++ a :: after /\ link a ∉ map link after.

Lemma new_Map_snoc {V : Type} (entries : list (jsstring * V)) (k : jsstring) (v : V) :
  new_Map (entries ++ [(k, v)]) = Map_set k v (new_Map entries).
Proof. unfold new_Map. by rewrite fold_left_app. Qed.

Lemma new_Map_by_link (all : list NewsArticle) :
  let m := new_Map (map (fun a => (link a, a)) all) in
  NoDup (map fst m) /\
  (forall k, k ∈ map fst m <-> k ∈ map link all) /\
  (forall k a, (k, a) ∈ m <-> k = link a /\ lastWithItsLink all a).
Proof.
  induction all as [|b all IH] using rev_ind; simpl.
  - split; [constructor|]. split; [done|]. intros k a. split.
    + by intros ?%elem_of_nil.
    + intros [_ (before & after & Heq & _)]. by destruct before.
  - destruct IH as (Hnd & Hkeys & Hlast).
    rewrite map_app. simpl. rewrite new_Map_snoc.
    split; [by apply Map_set_NoDup|]. split.
    + intros k. rewrite Map_set_keys, map_app. simpl. case_decide as Hin.
      * rewrite elem_of_app, <- Hkeys. split; [by left|].
        intros [?|Hk%list_elem_of_singleton]; [done|by subst k].
      * rewrite !elem_of_app, Hkeys. done.
    + intros k a. rewrite Map_set_elem by done. rewrite Hlast. split.
      * intros [[-> ->]|[Hne [-> (before & after & -> & Hafter)]]].
        -- split; [done|]. exists all, []. split; [done|]. apply not_elem_of_nil.
        -- split; [done|]. exists before, (after ++ [b]).
           split; [by rewrite <- app_assoc|].
           rewrite map_app, elem_of_app. simpl.
           intros [?|Heq%list_elem_of_singleton]; done.
      * intros [-> (before & after & Heq & Hafter)].
        destruct after as [|c after _] using rev_ind.
        -- apply app_inj_tail in Heq as [_ ->]. by left.
        -- rewrite app_comm_cons, app_assoc in Heq.
           apply app_inj_tail in Heq as [-> ->].
           rewrite map_app, elem_of_app in Hafter. simpl in Hafter.
           right. split.
           ++ intros Heq. apply Hafter. right. rewrite Heq. by left.
           ++ split; [done|]. exists before, after. split; [done|].
              intros ?. apply Hafter. by left.
Qed.

(** C2, as the code has it: after the merge no two kept articles share a
    link, every link of the merged sequence is kept, and the article kept
    for a link is the last one of the merged sequence with that link; the
    earlier ones are discarded. *)
Theorem uniqueByLink_keeps_last (allArticles : list NewsArticle) :
  NoDup (map link (uniqueByLink allArticles)) /\
  (forall l, l ∈ map link (uniqueByLink allArticles) <-> l ∈ map link allArticles) /\
  (forall a, a ∈ uniqueByLink allArticles <-> lastWithItsLink allArticles a).
Proof.
  destruct (new_Map_by_link allArticles) as (Hnd & Hkeys & Hlast).
  unfold uniqueByLink, Map_values.
  set (m := new_Map (map (fun a => (link a, a)) allArticles)) in *.
  assert (Hlinks : map link (map snd m) = map fst m).
  { rewrite map_map. apply map_ext_in. intros [k a] Hin%list_elem_of_In.
    apply Hlast in Hin as [-> _]. done. }
  rewrite Hlinks. split; [done|]. split; [done|].
  intros a. rewrite list_elem_of_fmap. split.
  - intros ([k a'] & -> & Hin). by apply Hlast in Hin as [_ ?].
  - intros Ha. exists (link a, a). split; [done|]. by apply Hlast.
Qed.

Lemma uniqueByLink_keeps_last_witness :
  portArticleUpdated ∈ uniqueByLink [portArticle; riverArticle; portArticleUpdated].
Proof.
  apply (uniqueByLink_keeps_last [portArticle; riverArticle; portArticleUpdated]).
  exists [portArticle; riverArticle], []. split; [reflexivity|]. apply not_elem_of_nil.
Defined.

(** The claim of C2 fails: of two articles with one link, the first of the
    merged sequence is dropped and the later one is kept, in the merge and
    in what the aggregator returns. *)
Lemma uniqueByLink_first_dropped :
  link portArticle = link portArticleUpdated /\
  portArticle <> portArticleUpdated /\
  uniqueByLink [portArticle; portArticleUpdated] = [portArticleUpdated] /\
  fetchNewsForCategory twoCopiesFetch trending ∅ = Returns [portArticleUpdated].
Proof. split; [done|]. split; [done|]. split; by vm_compute. Qed.

(** ** Failures of the news source *)

Lemma single_category_status (fetch : jsstring -> NewsFetch) (category : NewsCategory)
    (used : gset jsstring) (statusText : jsstring) (body : option NewsDataResponse) :
  isTop category = false ->
  fetch (apiValue category) = NewsResponse false statusText body ->
  fetchNewsForCategory fetch category used = Throws (NewsDataRequestFailed statusText).
Proof.
  intros Htop Hfetch. unfold fetchNewsForCategory, fetchRawArticles.
  by rewrite Htop, Hfetch.
Qed.

Lemma aggregate_rejection (fetch : jsstring -> NewsFetch) (category : NewsCategory)
    (used : gset jsstring) (cat : jsstring) :
  isTop category = true ->
  cat ∈ [lit "politics"; lit "crime"; lit "entertainment"; lit "business"] ->
  fetchJson (fetch cat) = Throws Rejected ->
  fetchNewsForCategory fetch category used = Throws Rejected.
Proof.
  intros Htop Hcat Hrej. unfold fetchNewsForCategory, fetchRawArticles. rewrite Htop.
  change (map apiValue (List.filter (fun c => negb (isTop c)) NEWS_CATEGORIES))
    with [lit "politics"; lit "crime"; lit "entertainment"; lit "business"].
  assert (Hall : forall e, fetchJson (fetch e) = Throws Rejected \/
                           exists b, fetchJson (fetch e) = Returns b).
  { intros e. destruct (fetch e) as [|ok st [b|]]; simpl; eauto. }
  cbn [map Promise_all].
  repeat (apply elem_of_cons in Hcat as [->|Hcat];
          [rewrite ?Hrej;
           repeat match goal with
                  | |- context [fetchJson (fetch ?e)] =>
                      destruct (Hall e) as [->|[? ->]]
                  end; done|]).
  by apply elem_of_nil in Hcat.
Qed.

(** C4 at a failing input: the politics sub-fetch of the aggregate category
    comes back with status 500; the aggregate fetch does not fail, it
    returns the articles of the other sub-fetches.  The same response makes
    the politics category itself fail. *)
Theorem aggregate_ignores_status :
  fetchNewsForCategory politicsDownFetch trending ∅
    = Returns [riverArticle; cricketArticle] /\
  fetchNewsForCategory politicsDownFetch politics ∅
    = Throws (NewsDataRequestFailed (lit "Internal Server Error")).
Proof. split; by vm_compute. Qed.

(** ** Replies that are not complete *)

Lemma missing_words_throws (text : jsstring) :
  parseLines text !! lit "HIGHLIGHT_WORDS" = None ->
  parseAnalysis text = Throws (GeminiParseFailed text).
Proof. intros Hw. unfold parseAnalysis. by rewrite Hw. Qed.

(** C1 at failing inputs: a reply with only CHOSEN_ID and HIGHLIGHT_WORDS is
    parsed into a result whose other four fields are undefined; a reply
    without SOURCE_NAME is parsed and the category is posted; a CHOSEN_ID
    that is not a number, or past the end of the candidates, is returned by
    the parser as it is, and the category fails only later, when the link
    of the missing article is read. *)
Theorem partial_reply_accepted :
  interpretReply (Some twoKeyReply)
    = Returns (Some {| chosenId := Some 1%Z; headline := None;
                       highlightWords := [lit "Port"]; imagePrompt := None;
                       caption := None; sourceName := None |}) /\
  (exists r, interpretReply (Some noSourceReply) = Returns (Some r) /\
             sourceName r = None) /\
  categoryStatus (processCategory (sampleWorld [portArticle] noSourceReply) ∅ politics)
    = Posted (lit "https://cdn.example/1.png") /\
  (exists r, interpretReply (Some (replyWithId "two")) = Returns (Some r) /\
             chosenId r = None) /\
  (exists r, interpretReply (Some (replyWithId "7")) = Returns (Some r) /\
             chosenId r = Some 7%Z) /\
  categoryStatus (processCategory (sampleWorld [portArticle] (replyWithId "7")) ∅ politics)
    = Failed TypeError.
Proof.
  split; [by vm_compute|].
  split; [eexists; split; [by vm_compute|done]|].
  split; [by vm_compute|].
  split; [eexists; split; [by vm_compute|done]|].
  split; [eexists; split; [by vm_compute|done]|].
  by vm_compute.
Qed.

(** ** Headline segmentation *)

Lemma fold_left_groupFree (op : regex -> regex -> regex) (ts : list regex) (t : regex) :
  (forall a b, groupFree (op a b) = groupFree a && groupFree b) ->
  groupFree t = true -> forallb groupFree ts = true ->
  groupFree (fold_left op ts t) = true.
Proof.
  intros Hop. revert t. induction ts as [|x ts IH]; simpl; intros t Ht Hts; [done|].
  apply andb_prop in Hts as [Hx Hts]. apply IH; [|done]. by rewrite Hop, Ht, Hx.
Qed.

Lemma seqOf_groupFree (ts : list regex) :
  forallb groupFree ts = true -> groupFree (seqOf ts) = true.
Proof.
  destruct ts as [|t ts]; simpl; [done|]. intros [Ht Hts]%andb_prop.
  by apply fold_left_groupFree.
Qed.

Lemma altOf_groupFree (alts : list regex) :
  forallb groupFree alts = true -> groupFree (altOf alts) = true.
Proof.
  destruct alts as [|t ts]; simpl; [done|]. intros [Ht Hts]%andb_prop.
  by apply fold_left_groupFree.
Qed.

Lemma nextAlternative_groupFree (f : frame) :
  groupFreeFrame f = true -> groupFreeFrame (nextAlternative f) = true.
Proof.
  unfold groupFreeFrame. intros [Ha Ht]%andb_prop. simpl.
  rewrite forallb_app, Ha. simpl. by rewrite seqOf_groupFree.
Qed.

Lemma closeFrame_groupFree (f : frame) :
  groupFreeFrame f = true -> groupFree (closeFrame f) = true.
Proof.
  intros Hf. unfold closeFrame. apply altOf_groupFree.
  apply nextAlternative_groupFree in Hf. unfold groupFreeFrame in Hf.
  by apply andb_prop in Hf as [? _].
Qed.

Lemma addTerm_groupFree (f : frame) (c : ascii) :
  groupFreeFrame f = true -> groupFreeFrame (addTerm f (RChar c)) = true.
Proof.
  unfold groupFreeFrame. intros [Ha Ht]%andb_prop. simpl.
  by rewrite Ha, forallb_app, Ht.
Qed.

(** Reading plain code units opens and closes no group. *)
Lemma parsePattern_plain (w rest : jsstring) (stack : list (nat * frame)) (groups : nat) :
  forallb plainChar w = true ->
  forall top, groupFreeFrame top = true ->
    exists top', groupFreeFrame top' = true /\
      parsePattern (w ++ rest) top stack groups = parsePattern rest top' stack groups.
Proof.
  induction w as [|c w IH]; simpl; intros Hw top Htop; [by exists top|].
  apply andb_prop in Hw as [Hc Hw]. unfold plainChar in Hc.
  destruct (decide (c = "("%char)) as [->|Hopen]; [done|].
  destruct (decide (c = ")"%char)) as [->|Hclose]; [done|].
  rewrite (bool_decide_eq_false_2 _ Hopen), (bool_decide_eq_false_2 _ Hclose).
  destruct (decide (c = "|"%char)) as [->|Hbar].
  - rewrite bool_decide_eq_true_2 by done.
    apply IH; [done|]. by apply nextAlternative_groupFree.
  - rewrite (bool_decide_eq_false_2 _ Hbar) in *.
    rewrite orb_false_r in Hc. apply negb_true_iff in Hc. rewrite Hc.
    apply IH; [done|]. by apply addTerm_groupFree.
Qed.

Lemma join_plain (highlightWords : list jsstring) :
  forallb isPlainPhrase highlightWords = true ->
  forallb plainChar (join (lit "|") highlightWords) = true.
Proof.
  induction highlightWords as [|p ps IH]; [done|].
  intros [Hp Hps]%andb_prop. cbn [join]. destruct ps as [|p' ps]; [done|].
  rewrite forallb_app. apply andb_true_intro. split; [exact Hp|].
  change (lit "|" ++ join (lit "|") (p' :: ps))
    with ("|"%char :: join (lit "|") (p' :: ps)).
  cbn [forallb]. apply andb_true_intro. split; [done|]. by apply IH.
Qed.

Lemma highlightPattern_compiles (highlightWords : list jsstring) :
  forallb isPlainPhrase highlightWords = true ->
  exists r, groupFree r = true /\
            new_RegExp (highlightPattern highlightWords) = Pattern (RGroup 1 r) 1.
Proof.
  intros Hplain. unfold new_RegExp, highlightPattern.
  cbn [lit list_ascii_of_string app parsePattern].
  rewrite bool_decide_eq_true_2 by done.
  destruct (parsePattern_plain (join (lit "|") highlightWords) [")"%char]
              [(1, emptyFrame)] 1 (join_plain _ Hplain) emptyFrame eq_refl)
    as (top' & Htop' & Hparse).
  cbn [lit list_ascii_of_string] in Hparse. rewrite Hparse.
  exists (closeFrame top'). split; [by apply closeFrame_groupFree|]. done.
Qed.

(** A pattern without groups consumes a prefix of the input and leaves the
    captures alone. *)
Lemma matchRegex_groupFree (r : regex) :
  groupFree r = true ->
  forall s caps k res,
    matchRegex r s caps k = Some res ->
    exists m s1, s = m ++ s1 /\ k s1 caps = Some res.
Proof.
  induction r as [|c|r1 IH1 r2 IH2|r1 IH1 r2 IH2|i r1 IH1]; simpl; intros Hr s caps k res.
  - intros Hk. by exists [], s.
  - destruct s as [|x s']; [done|]. case_bool_decide; [|done].
    intros Hk. by exists [x], s'.
  - apply andb_prop in Hr as [Hr1 Hr2]. intros Hm.
    apply (IH1 Hr1) in Hm as (m1 & s1 & -> & Hm).
    apply (IH2 Hr2) in Hm as (m2 & s2 & -> & Hm).
    exists (m1 ++ m2), s2. by rewrite app_assoc.
  - apply andb_prop in Hr as [Hr1 Hr2].
    destruct (matchRegex r1 s caps k) as [m|] eqn:Hleft.
    + intros [= <-]. by apply (IH1 Hr1) in Hleft.
    + intros Hright. by apply (IH2 Hr2) in Hright.
  - done.
Qed.

Lemma group_capturesWholeMatch (r : regex) :
  groupFree r = true -> capturesWholeMatch (RGroup 1 r) 1.
Proof.
  intros Hr s after caps. unfold execAt. simpl.
  intros (m & s1 & -> & [= <- <-])%(matchRegex_groupFree r Hr).
  exists m. split; [done|].
  rewrite length_app. replace (length m + length s1 - length s1) with (length m) by lia.
  by rewrite take_app_length.
Qed.

(** Whatever the pattern, a match ends inside the input. *)
Lemma matchRegex_suffix (r : regex) :
  forall s caps k res,
    matchRegex r s caps k = Some res ->
    exists m s1 caps1, s = m ++ s1 /\ k s1 caps1 = Some res.
Proof.
  induction r as [|c|r1 IH1 r2 IH2|r1 IH1 r2 IH2|i r1 IH1]; simpl; intros s caps k res.
  - intros Hk. by exists [], s, caps.
  - destruct s as [|x s']; [done|]. case_bool_decide; [|done].
    intros Hk. by exists [x], s', caps.
  - intros Hm.
    apply IH1 in Hm as (m1 & s1 & caps1 & -> & Hm).
    apply IH2 in Hm as (m2 & s2 & caps2 & -> & Hm).
    exists (m1 ++ m2), s2, caps2. by rewrite app_assoc.
  - destruct (matchRegex r1 s caps k) as [m|] eqn:Hleft.
    + intros [= <-]. by apply IH1 in Hleft.
    + intros Hright. by apply IH2 in Hright.
  - intros Hm. apply IH1 in Hm as (m1 & s1 & caps1 & -> & Hm). eauto.
Qed.

Lemma execAt_length (r : regex) (groups : nat) (s after : jsstring) (caps : captures) :
  execAt r groups s = Some (after, caps) -> length after <= length s.
Proof.
  unfold execAt. intros (m & s1 & caps1 & -> & [= <- _])%matchRegex_suffix.
  rewrite length_app. lia.
Qed.

(** The fuel given by [String_split] is enough for every pattern. *)
Lemma splitLoop_total (r : regex) (groups : nat) :
  forall fuel piece rest,
    2 * length rest + (if truthy piece then 1 else 0) < fuel ->
    is_Some (splitLoop fuel r groups piece rest).
Proof.
  induction fuel as [|fuel IH]; intros piece rest Hfuel; [lia|].
  destruct rest as [|c rest']; simpl; [done|].
  assert (Hadvance : is_Some (splitLoop fuel r groups (piece ++ [c]) rest')).
  { apply IH. simpl in Hfuel. destruct (truthy (piece ++ [c])); lia. }
  destruct (execAt r groups (c :: rest')) as [[after caps]|] eqn:Hexec; [|done].
  case_bool_decide as He; [done|].
  apply execAt_length in Hexec.
  destruct (IH [] after) as [parts ->]; [|done].
  simpl in *. destruct piece; simpl in *; lia.
Qed.

Lemma String_split_total (r : regex) (groups : nat) (S : jsstring) :
  is_Some (String_split r groups S).
Proof.
  destruct S as [|c S']; simpl String_split.
  - by destruct (execAt r groups []).
  - apply (splitLoop_total r groups (2 * length (c :: S') + 2) [] (c :: S')).
    simpl. lia.
Qed.

Lemma truthyParts_cons (part : jsstring) (parts : captures) :
  concat (truthyParts (Some part :: parts)) = part ++ concat (truthyParts parts).
Proof. unfold truthyParts. simpl. by destruct part. Qed.

(** With such a pattern the loop ends within its fuel and the pieces, put
    together, are the piece in progress followed by the rest. *)
Lemma splitLoop_concat (r : regex) (groups : nat) :
  capturesWholeMatch r groups ->
  forall fuel piece rest,
    2 * length rest + (if truthy piece then 1 else 0) < fuel ->
    exists parts, splitLoop fuel r groups piece rest = Some parts /\
                  concat (truthyParts parts) = piece ++ rest.
Proof.
  intros Hwhole. induction fuel as [|fuel IH]; intros piece rest Hfuel; [lia|].
  destruct rest as [|c rest']; simpl.
  - exists [Some piece]. split; [done|]. rewrite truthyParts_cons. done.
  - assert (Hadvance : exists parts,
              splitLoop fuel r groups (piece ++ [c]) rest' = Some parts /\
              concat (truthyParts parts) = piece ++ c :: rest').
    { destruct (IH (piece ++ [c]) rest') as (parts & Hparts & Hconcat).
      - simpl in Hfuel. destruct (truthy (piece ++ [c])); lia.
      - exists parts. split; [done|]. by rewrite Hconcat, <- app_assoc. }
    destruct (execAt r groups (c :: rest')) as [[after caps]|] eqn:Hexec; [|done].
    case_bool_decide as He; [done|].
    apply Hwhole in Hexec as (m & Hm & ->).
    assert (Hlen : length (c :: rest') = length m + length after)
      by (by rewrite Hm, length_app).
    destruct (IH [] after) as (parts & Hparts & Hconcat).
    { simpl in *. destruct piece; simpl in *; lia. }
    rewrite Hparts. simpl. eexists. split; [done|].
    rewrite !truthyParts_cons, Hconcat, Hm. done.
Qed.

Lemma String_split_concat (r : regex) (groups : nat) (S : jsstring) :
  capturesWholeMatch r groups ->
  exists parts, String_split r groups S = Some parts /\
                concat (truthyParts parts) = S.
Proof.
  intros Hwhole. destruct S as [|c S']; simpl String_split.
  - destruct (execAt r groups []); by eexists.
  - apply (splitLoop_concat r groups Hwhole (2 * length (c :: S') + 2) [] (c :: S')).
    simpl. lia.
Qed.

Lemma markPart_text (highlightWords : list jsstring) (parts : list jsstring) :
  map text (map (markPart highlightWords) parts) = parts.
Proof. rewrite map_map. simpl. apply map_id. Qed.

(** In the modelled fragment: when no highlight phrase holds a syntax
    character of the pattern language other than the bar, segmentation
    returns segments whose texts, concatenated in order, are the headline. *)
Lemma segmentation_modelled (headline : jsstring) (highlightWords : list jsstring) :
  forallb isPlainPhrase highlightWords = true ->
  exists parts,
    splitHeadlineForHighlighting headline highlightWords = Some (Returns parts) /\
    concat (map text parts) = headline.
Proof.
  intros Hplain. unfold splitHeadlineForHighlighting.
  destruct (noHighlighting highlightWords).
  - eexists. split; [done|]. simpl. apply app_nil_r.
  - destruct (highlightPattern_compiles _ Hplain) as (r & Hr & ->).
    destruct (String_split_concat (RGroup 1 r) 1 headline
                (group_capturesWholeMatch r Hr)) as (parts & -> & Hconcat).
    eexists. split; [done|]. by rewrite markPart_text.
Qed.

(** *** Over the language's own engine *)

(** [splitHeadlineForHighlighting] is [segmentHeadlineWith] at the engine of
    the modelled fragment. *)
Lemma splitLoopWith_modelled (r : regex) (groups : nat) :
  forall fuel seen piece rest,
    splitLoopWith (fun _ s => execAt r groups s) fuel seen piece rest
      = splitLoop fuel r groups piece rest.
Proof.
  induction fuel as [|fuel IH]; intros seen piece rest; [done|].
  destruct rest as [|c rest']; [done|]. cbn [splitLoopWith splitLoop].
  destruct (execAt r groups (c :: rest')) as [[after caps]|]; [|by rewrite IH].
  case_bool_decide; by rewrite IH.
Qed.

Lemma segmentHeadlineWith_modelled (headline : jsstring) (highlightWords : list jsstring) :
  new_RegExp (highlightPattern highlightWords) <> PatternNotModelled ->
  segmentHeadlineWith modelledEngine headline highlightWords
    = splitHeadlineForHighlighting headline highlightWords.
Proof.
  intros Hmodelled. unfold segmentHeadlineWith, splitHeadlineForHighlighting, modelledEngine.
  destruct (noHighlighting highlightWords); [done|].
  destruct (new_RegExp (highlightPattern highlightWords)) as [r groups| |]; [|done..].
  unfold String_split_with, String_split.
  destruct headline as [|c headline']; [done|].
  by rewrite splitLoopWith_modelled.
Qed.










(** Phrases with a full stop, a percent sign, a quantifier, a class or a
    parenthesis taken by a backslash leave the outer group as it is; a
    phrase with a group of its own, with a parenthesis that closes the
    outer group early, or one that turns the outer group into another kind
    of group does not. *)
Example keepsOuterGroup_examples :
  keepsOuterGroup [lit "U.S."; lit "5.8%"; lit "next?"; lit "[(]"; lit "\(BNP\)"] = true /\
  keepsOuterGroup [lit "a(b)"] = false /\
  keepsOuterGroup [lit "a)" ++ [backslash]] = false /\
  keepsOuterGroup [lit "?:a"] = false.
Proof. by vm_compute. Qed.


(** The segments of the example of the specification. *)
Example segmentation_example :
  splitHeadlineForHighlighting (lit "Dhaka Port Expansion Begins") [lit "Port Expansion"]
    = Some (Returns [ {| text := lit "Dhaka "; highlighted := false |};
                      {| text := lit "Port Expansion"; highlighted := true |};
                      {| text := lit " Begins"; highlighted := false |} ]).
Proof. by vm_compute. Qed.

(** An unbalanced parenthesis in a phrase makes the pattern constructor
    throw. *)
Example segmentation_throws :
  splitHeadlineForHighlighting (lit "xaby") [lit "a("] = Some (Throws SyntaxError).
Proof. by vm_compute. Qed.

(** * Further properties of the worker *)

(** ** The Article Aggregator *)

Lemma filter_sublist {A : Type} (p : A -> bool) (l : list A) :
  List.filter p l `sublist_of` l.
Proof.
  induction l as [|a l IH]; simpl; [constructor|].
  destruct (p a); by constructor.
Qed.

Lemma sublist_map {A B : Type} (f : A -> B) (l1 l2 : list A) :
  l1 `sublist_of` l2 -> map f l1 `sublist_of` map f l2.
Proof. induction 1; simpl; by constructor. Qed.

Lemma insertByDate_Permutation (a : NewsArticle) (l : list NewsArticle) :
  insertByDate a l ≡ₚ a :: l.
Proof.
  induction l as [|b l IH]; simpl; [done|].
  destruct (pubDate b - pubDate a <=? 0)%Z; [done|].
  rewrite IH. apply Permutation_swap.
Qed.

Lemma sortByDateDesc_Permutation (l : list NewsArticle) : sortByDateDesc l ≡ₚ l.
Proof.
  induction l as [|a l IH]; simpl; [done|].
  by rewrite insertByDate_Permutation, IH.
Qed.

Lemma Promise_all_Returns {A : Type} (ps : list (Completion A)) (l : list A) :
  Promise_all ps = Returns l <-> ps = map Returns l.
Proof.
  revert l. induction ps as [|[a|e] ps IH]; intros l; simpl.
  - split; [by intros [= <-]|]. by destruct l.
  - destruct (Promise_all ps) as [l'|e] eqn:Hall.
    + split.
      * intros [= <-]. simpl. f_equal. by apply IH.
      * destruct l as [|a' l'']; [done|]. intros [= -> Hps]. f_equal. f_equal.
        apply IH in Hps. by injection Hps.
    + split; [done|]. destruct l as [|a' l'']; [done|]. intros [= -> Hps].
      by apply IH in Hps.
  - split; [done|]. by destruct l.
Qed.

Lemma Promise_all_Throws {A : Type} (ps : list (Completion A)) :
  (exists e, Promise_all ps = Throws e) <-> exists e, Throws e ∈ ps.
Proof.
  induction ps as [|[a|e] ps IH]; simpl.
  - split; intros [e He]; [done|by apply elem_of_nil in He].
  - destruct (Promise_all ps) as [l'|e] eqn:Hall.
    + split; [by intros [e He]|]. intros [e He]. apply elem_of_cons in He as [?|He]; [done|].
      destruct IH as [_ IH]. destruct IH as [e' He']; [by exists e|done].
    + split; [|by exists e]. intros _. destruct IH as [IH _].
      destruct IH as [e' He']; [by exists e|]. exists e'. by right.
  - split; intros _; exists e; [by left|done].
Qed.

Lemma uniqueByLink_NoDup (allArticles : list NewsArticle) :
  NoDup (map link (uniqueByLink allArticles)).
Proof.
  destruct (new_Map_by_link allArticles) as (Hnd & _ & Hlast).
  unfold uniqueByLink, Map_values.
  set (m := new_Map (map (fun a => (link a, a)) allArticles)) in *.
  replace (map link (map snd m)) with (map fst m); [done|].
  rewrite map_map. apply map_ext_in. intros [k a] Hin%list_elem_of_In.
  by apply Hlast in Hin as [-> _].
Qed.

(** X1: every article the aggregator returns has an image reference that is
    not empty and a content or description that is not empty, so the prompt
    never prints an empty or missing content for it; and its link is not in
    the set of used links. *)
Theorem candidates_renderable (fetch : jsstring -> NewsFetch) (category : NewsCategory)
    (used : gset jsstring) (articles : list NewsArticle) :
  fetchNewsForCategory fetch category used = Returns articles ->
  Forall (fun a => (exists url, image_url a = Some url /\ url <> []) /\
                   contentOrDescription a <> [] /\
                   (opt_truthy (content a) = false ->
                    description a = Some (contentOrDescription a)) /\
                   link a ∉ used) articles.
Proof.
  intros Hfetch. rewrite Forall_forall. intros a Ha.
  assert (Hunused : link a ∉ used)
    by (by apply (fetchNewsForCategory_unused _ _ _ _ _ Hfetch)).
  apply list_elem_of_In in Ha.
  unfold fetchNewsForCategory in Hfetch.
  destruct (fetchRawArticles fetch category) as [raw|e]; [|done].
  injection Hfetch as <-.
  apply filter_In in Ha as [Ha _]. apply filter_In in Ha as [_ Hvalid].
  unfold isValidArticle in Hvalid. apply andb_prop in Hvalid as [Himg Htext].
  split; [|split; [|split; [|done]]].
  - destruct (image_url a) as [[|c url]|]; [done| |done]. by eexists.
  - unfold contentOrDescription.
    destruct (content a) as [[|c body]|]; simpl in *; [| done |];
      by destruct (description a) as [[|d descr]|].
  - unfold contentOrDescription. intros Hcontent. rewrite Hcontent in Htext |- *.
    destruct (description a) as [d|]; [done|]. by simpl in Htext.
Qed.

Lemma candidates_renderable_witness :
  Forall (fun a => (exists url, image_url a = Some url /\ url <> []) /\
                   contentOrDescription a <> [] /\
                   (opt_truthy (content a) = false ->
                    description a = Some (contentOrDescription a)) /\
                   link a ∉ (∅ : gset jsstring)) [portArticleUpdated].
Proof.
  apply (candidates_renderable twoCopiesFetch trending ∅ [portArticleUpdated]).
  by vm_compute.
Defined.

(** X2: for the aggregate category the returned list has at most ten
    articles and no two of them share a link. *)
Theorem aggregate_shape (fetch : jsstring -> NewsFetch) (category : NewsCategory)
    (used : gset jsstring) (articles : list NewsArticle) :
  isTop category = true ->
  fetchNewsForCategory fetch category used = Returns articles ->
  length articles <= 10 /\
  NoDup (map link articles).
Proof.
  intros Htop. unfold fetchNewsForCategory, fetchRawArticles. rewrite Htop.
  destruct (Promise_all _) as [responses|e]; [|done].
  intros [= <-].
  set (unique := uniqueByLink (concat (map resultsOrEmpty responses))).
  assert (Hsub : List.filter (isUnused used)
                   (List.filter isValidArticle (take 10 (sortByDateDesc unique)))
                 `sublist_of` sortByDateDesc unique).
  { etrans; [apply filter_sublist|]. etrans; [apply filter_sublist|]. apply sublist_take. }
  split.
  - etrans; [apply sublist_length; etrans; apply filter_sublist|].
    rewrite length_take. lia.
  - apply (sublist_NoDup _ (map link (sortByDateDesc unique)));
      [|by apply sublist_map].
    change (NoDup (link <$> sortByDateDesc unique)).
    rewrite sortByDateDesc_Permutation. apply uniqueByLink_NoDup.
Qed.

Lemma aggregate_shape_witness :
  length [riverArticle; cricketArticle] <= 10 /\
  NoDup (map link [riverArticle; cricketArticle]).
Proof.
  apply (aggregate_shape politicsDownFetch trending ∅ [riverArticle; cricketArticle]);
    by vm_compute.
Defined.

Lemma fetchJson_Throws (f : NewsFetch) (e : Error) :
  fetchJson f = Throws e <->
  e = Rejected /\
  (f = NewsFetchRejects \/ exists ok statusText, f = NewsResponse ok statusText None).
Proof.
  destruct f as [|ok st [body|]]; simpl.
  - split; [intros [= <-]; split; [done|by left]|by intros [-> _]].
  - split; [done|]. intros [_ [?|(? & ? & ?)]]; done.
  - split; [intros [= <-]; split; [done|right; eauto]|by intros [-> _]].
Qed.

(** X3: the aggregate fetch fails exactly when one of the four sub-fetches
    rejects or delivers a body that cannot be read as JSON, and the error is
    then that rejection; the status of the responses plays no part. *)
Theorem aggregate_fails_iff (fetch : jsstring -> NewsFetch) (category : NewsCategory)
    (used : gset jsstring) :
  isTop category = true ->
  ((exists e, fetchNewsForCategory fetch category used = Throws e) <->
   exists cat, cat ∈ [lit "politics"; lit "crime"; lit "entertainment"; lit "business"] /\
               (fetch cat = NewsFetchRejects \/
                exists ok statusText, fetch cat = NewsResponse ok statusText None)) /\
  (forall e, fetchNewsForCategory fetch category used = Throws e -> e = Rejected).
Proof.
  intros Htop. unfold fetchNewsForCategory, fetchRawArticles. rewrite Htop.
  change (map apiValue (List.filter (fun c => negb (isTop c)) NEWS_CATEGORIES))
    with [lit "politics"; lit "crime"; lit "entertainment"; lit "business"].
  set (cats := [lit "politics"; lit "crime"; lit "entertainment"; lit "business"]).
  set (promises := map (fun cat => fetchJson (fetch cat)) cats).
  assert (Hthrow : forall e, Throws e ∈ promises ->
            e = Rejected /\ exists cat, cat ∈ cats /\
              (fetch cat = NewsFetchRejects \/
               exists ok statusText, fetch cat = NewsResponse ok statusText None)).
  { intros e (cat & Heq & Hcat)%list_elem_of_fmap. symmetry in Heq.
    apply fetchJson_Throws in Heq as [-> Hf]. eauto. }
  split.
  - split.
    + intros [e He]. destruct (Promise_all promises) as [l|e'] eqn:Hall; [done|].
      destruct (proj1 (Promise_all_Throws promises)) as [e'' He'']; [by exists e'|].
      by apply Hthrow in He'' as [_ ?].
    + intros (cat & Hcat & Hf).
      destruct (proj2 (Promise_all_Throws promises)) as [e He].
      * exists Rejected. apply list_elem_of_fmap. exists cat. split; [|done].
        symmetry. by apply fetchJson_Throws.
      * exists e. by rewrite He.
  - intros e. destruct (Promise_all promises) as [l|e'] eqn:Hall; [done|].
    intros [= <-].
    assert (Hfirst : forall ps : list (Completion NewsDataResponse),
              Promise_all ps = Throws e' -> Throws e' ∈ ps).
    { induction ps as [|[a|e0] ps IH]; simpl; [done| |].
      - destruct (Promise_all ps); [done|]. intros [= ->]. right. by apply IH.
      - intros [= ->]. by left. }
    by apply Hfirst, Hthrow in Hall as [? _].
Qed.

Lemma aggregate_fails_iff_witness :
  ~ exists e, fetchNewsForCategory politicsDownFetch trending ∅ = Throws e.
Proof.
  pose proof (aggregate_fails_iff politicsDownFetch trending ∅ eq_refl) as [Hiff _].
  intros Hthrows. apply Hiff in Hthrows as (cat & Hcat & Hf).
  repeat (apply elem_of_cons in Hcat as [->|Hcat];
          [destruct Hf as [Hf|(ok & st & Hf)]; by vm_compute in Hf|]).
  by apply elem_of_nil in Hcat.
Defined.

(** ** Splitting, joining and trimming *)

Lemma splitOn_nonempty (sep : ascii) (s : jsstring) : splitOn sep s <> [].
Proof.
  destruct s as [|c s]; simpl; [done|].
  case_bool_decide; [done|]. by destruct (splitOn sep s).
Qed.

Lemma join_cons (sep p : jsstring) (ps : list jsstring) :
  ps <> [] -> join sep (p :: ps) = p ++ sep ++ join sep ps.
Proof. by destruct ps. Qed.

(** Joining the pieces of a split with the separator gives the string
    back. *)
Lemma join_splitOn (sep : ascii) (s : jsstring) : join [sep] (splitOn sep s) = s.
Proof.
  induction s as [|c s IH]; simpl; [done|].
  case_bool_decide as Hc.
  - subst c. rewrite join_cons by apply splitOn_nonempty. simpl. by rewrite IH.
  - pose proof (splitOn_nonempty sep s) as Hne.
    destruct (splitOn sep s) as [|piece pieces]; [done|].
    destruct pieces as [|piece' pieces]; simpl in *; by rewrite IH.
Qed.

Lemma splitOn_absent (sep : ascii) (s : jsstring) : sep ∉ s -> splitOn sep s = [s].
Proof.
  induction s as [|c s IH]; simpl; [done|]. intros Hsep.
  rewrite bool_decide_eq_false_2 by (intros ->; apply Hsep; by left).
  rewrite IH; [done|]. intros ?. apply Hsep. by right.
Qed.

Lemma splitOn_app (sep : ascii) (a b : jsstring) :
  splitOn sep (a ++ sep :: b) = splitOn sep a ++ splitOn sep b.
Proof.
  induction a as [|c a IH]; simpl.
  - by rewrite bool_decide_eq_true_2.
  - case_bool_decide; rewrite IH; [done|].
    pose proof (splitOn_nonempty sep a). by destruct (splitOn sep a).
Qed.

Lemma splitOn_first (sep : ascii) (key rest : jsstring) :
  sep ∉ key -> splitOn sep (key ++ sep :: rest) = key :: splitOn sep rest.
Proof. intros Hkey. by rewrite splitOn_app, splitOn_absent. Qed.

Lemma trimStart_decomp (s : jsstring) :
  exists pre, s = pre ++ trimStart s /\ forallb isWhiteSpace pre = true.
Proof.
  induction s as [|c s (pre & Hs & Hpre)]; simpl; [by exists []|].
  destruct (isWhiteSpace c) eqn:Hc; [|by exists []].
  exists (c :: pre). simpl. rewrite Hc, Hpre. split; [by f_equal|done].
Qed.

Lemma trimStart_app_nonws (x y : jsstring) (c : ascii) :
  isWhiteSpace c = false -> trimStart (x ++ c :: y) = trimStart x ++ c :: y.
Proof.
  intros Hc. induction x as [|d x IH]; simpl; [by rewrite Hc|].
  by destruct (isWhiteSpace d).
Qed.

Lemma trimStart_head (s : jsstring) :
  match trimStart s with
  | [] => True
  | c :: _ => isWhiteSpace c = false
  end.
Proof.
  induction s as [|c s IH]; simpl; [done|].
  destruct (isWhiteSpace c) eqn:Hc; [done|]. by simpl.
Qed.

Lemma trimStart_idempotent (s : jsstring) : trimStart (trimStart s) = trimStart s.
Proof.
  pose proof (trimStart_head s) as Hhead.
  destruct (trimStart s) as [|c t]; [done|]. by apply trimStart_fixed.
Qed.

Lemma trimEnd_idempotent (s : jsstring) : trimEnd (trimEnd s) = trimEnd s.
Proof. unfold trimEnd. by rewrite rev_involutive, trimStart_idempotent. Qed.

Lemma trimEnd_app_nonws (x y : jsstring) (c : ascii) :
  isWhiteSpace c = false -> trimEnd (x ++ c :: y) = x ++ c :: trimEnd y.
Proof.
  intros Hc. unfold trimEnd.
  rewrite rev_app_distr. simpl. rewrite <- app_assoc. simpl.
  rewrite trimStart_app_nonws by done.
  rewrite rev_app_distr. simpl. by rewrite rev_involutive, <- app_assoc.
Qed.

Lemma trimEnd_whitespace (s : jsstring) :
  forallb isWhiteSpace s = true -> trimEnd s = [].
Proof.
  intros Hs. unfold trimEnd.
  rewrite <- (app_nil_r (rev s)), trimStart_whitespace by (by rewrite forallb_rev).
  done.
Qed.

(** Trimming the two ends can be done in either order. *)
Lemma trimStart_trimEnd (s : jsstring) : trimStart (trimEnd s) = trimEnd (trimStart s).
Proof.
  destruct (trimStart_decomp s) as (pre & Hs & Hpre).
  pose proof (trimStart_head s) as Hhead.
  destruct (trimStart s) as [|c t] eqn:Ht.
  - rewrite app_nil_r in Hs. subst pre. by rewrite trimEnd_whitespace.
  - rewrite Hs at 1. rewrite trimEnd_app_nonws by done.
    rewrite trimStart_app_nonws by done.
    rewrite <- (app_nil_r pre), trimStart_whitespace by done. simpl.
    symmetry. by apply (trimEnd_app_nonws [] t c).
Qed.

Lemma trim_idempotent (s : jsstring) : trim (trim s) = trim s.
Proof.
  unfold trim.
  by rewrite trimStart_trimEnd, trimStart_idempotent, trimEnd_idempotent.
Qed.

Lemma trim_trimEnd (s : jsstring) : trim (trimEnd s) = trim s.
Proof. unfold trim. by rewrite trimStart_trimEnd, trimEnd_idempotent. Qed.

Lemma trim_trimStart (s : jsstring) : trim (trimStart s) = trim s.
Proof. unfold trim. by rewrite trimStart_idempotent. Qed.

(** ** Candidate ordering in the prompt *)

Lemma String_of_nat_digits (n : nat) :
  Forall (fun c => digitValue c <> None) (String_of_nat n).
Proof.
  unfold String_of_nat. generalize (Nat.to_uint n). intros d.
  induction d as [|d IH|d IH|d IH|d IH|d IH|d IH|d IH|d IH|d IH|d IH];
    [constructor|..]; by constructor.
Qed.

Lemma String_of_nat_newline (n : nat) : newline ∉ String_of_nat n.
Proof.
  pose proof (String_of_nat_digits n) as Hdigits. rewrite Forall_forall in Hdigits.
  intros Hin. by apply Hdigits in Hin.
Qed.

Lemma splitOn_two_lines (first second rest : jsstring) :
  newline ∉ first -> newline ∉ second ->
  splitOn newline (first ++ newline :: second ++ newline :: rest) !! 1 = Some second.
Proof.
  intros Hfirst Hsecond.
  by rewrite splitOn_first, splitOn_first by done.
Qed.

(** C8: the article at the 1-based position [k] of the candidates is written
    into the prompt as the entry at position [k] of the list, and that entry
    is the text that starts with the line ARTICLE k: and the line ID: k,
    followed by the title, the content or description and the source of
    that article; the list has one entry for each candidate; the number
    after ID: parses back to [k], and reading the candidates at the index so
    parsed gives that same article. *)
Theorem candidate_ordering (articles : list NewsArticle) (k : nat) (a : NewsArticle) :
  1 <= k ->
  articles !! (k - 1) = Some a ->
  let entry :=
    lit "ARTICLE " ++ String_of_nat k ++ lit ":" ++ [newline] ++
    lit "ID: " ++ String_of_nat k ++ [newline] ++
    lit "Title: " ++ title a ++ [newline] ++
    lit "Content: " ++ contentOrDescription a ++ [newline] ++
    lit "Source: " ++ source_id a ++ [newline] ++
    lit "---" in
  articleEntries articles !! (k - 1) = Some entry /\
  splitOn newline entry !! 0 = Some (lit "ARTICLE " ++ String_of_nat k ++ lit ":") /\
  splitOn newline entry !! 1 = Some (lit "ID: " ++ String_of_nat k) /\
  length (articleEntries articles) = length articles /\
  buildGeminiPrompt articles
    = promptHead ++
      join [newline] (take (k - 1) (articleEntries articles) ++
                      entry :: drop k (articleEntries articles)) ++
      promptTail /\
  parseInt (Some (String_of_nat k)) = Some (Z.of_nat k) /\
  chosenArticleAt articles (parseInt (Some (String_of_nat k))) = Some a.
Proof.
  intros Hk Ha entry.
  assert (Hentry : articleEntries articles !! (k - 1) = Some entry).
  { unfold articleEntries. rewrite list_lookup_imap, Ha. simpl.
    by replace (k - 1 + 1) with k by lia. }
  assert (Hfirst : newline ∉ lit "ARTICLE " ++ String_of_nat k ++ lit ":").
  { assert (newline ∉ lit "ARTICLE ") by (apply (bool_decide_unpack _); by vm_compute).
    assert (newline ∉ lit ":") by (apply (bool_decide_unpack _); by vm_compute).
    rewrite !elem_of_app. intros [Hin|[Hin|Hin]]; [done| |done].
    by apply String_of_nat_newline in Hin. }
  assert (Hsecond : newline ∉ lit "ID: " ++ String_of_nat k).
  { assert (newline ∉ lit "ID: ") by (apply (bool_decide_unpack _); by vm_compute).
    rewrite elem_of_app. intros [Hin|Hin]; [done|].
    by apply String_of_nat_newline in Hin. }
  assert (Hshape : exists rest,
            entry = (lit "ARTICLE " ++ String_of_nat k ++ lit ":") ++
                    newline :: (lit "ID: " ++ String_of_nat k) ++ newline :: rest).
  { eexists. unfold entry. rewrite <- !app_assoc. simpl. reflexivity. }
  destruct Hshape as [rest Hshape].
  rewrite parseInt_String_of_nat.
  split; [exact Hentry|]. split; [|split; [|split; [|split; [|split]]]].
  - rewrite Hshape. by rewrite splitOn_first by done.
  - rewrite Hshape. by apply splitOn_two_lines.
  - unfold articleEntries. apply length_imap.
  - unfold buildGeminiPrompt, articlesString. do 2 f_equal.
    replace k with (S (k - 1)) at 2 by lia.
    by rewrite take_drop_middle.
  - done.
  - by rewrite chosenArticleAt_position.
Qed.

Lemma candidate_ordering_witness :
  articleEntries [portArticle; riverArticle; cricketArticle] !! 1
    = Some (lit "ARTICLE 2:" ++ newline :: lit "ID: 2" ++ newline ::
            lit "Title: River levels rise" ++ newline ::
            lit "Content: A short description." ++ newline ::
            lit "Source: thedailystar" ++ newline :: lit "---") /\
  splitOn newline (lit "ARTICLE 2:" ++ newline :: lit "ID: 2" ++ newline ::
            lit "Title: River levels rise" ++ newline ::
            lit "Content: A short description." ++ newline ::
            lit "Source: thedailystar" ++ newline :: lit "---") !! 1 = Some (lit "ID: 2") /\
  chosenArticleAt [portArticle; riverArticle; cricketArticle] (Some 2%Z)
    = Some riverArticle.
Proof.
  pose proof (candidate_ordering [portArticle; riverArticle; cricketArticle] 2
                riverArticle) as H.
  destruct H as (Hentry & _ & Hid & _ & _ & Hparse & Hchosen); [lia | reflexivity |].
  split; [exact Hentry|]. split; [exact Hid|].
  rewrite Hparse in Hchosen. exact Hchosen.
Defined.

(** ** The line parser *)

Lemma storeLine_pair (data : gmap jsstring jsstring) (key value : jsstring) :
  ":"%char ∉ key -> key <> [] ->
  storeLine data (key ++ ":"%char :: value)
    = if str_eqb (trim key) (lit "__proto__") then data
      else <[trim key := trim value]> data.
Proof.
  intros Hcolon Hkey. unfold storeLine. rewrite splitOn_first by done.
  assert (Hparts : 0 < length (splitOn ":"%char value)).
  { pose proof (splitOn_nonempty ":"%char value).
    destruct (splitOn ":"%char value); simpl; [done|lia]. }
  rewrite (bool_decide_eq_true_2 _ Hparts).
  change (lit ":") with [":"%char]. rewrite join_splitOn.
  by destruct key.
Qed.

(** X4: a line is stored under the text before its first colon, with
    everything after that colon as the value, colons included, both
    trimmed; the key [__proto__] is the exception, for which the object
    stores nothing; a line with no colon, or with nothing before its first
    colon, changes nothing. *)
Theorem storeLine_first_colon (data : gmap jsstring jsstring) (key value line : jsstring) :
  (":"%char ∉ key -> key <> [] -> trim key <> lit "__proto__" ->
   storeLine data (key ++ ":"%char :: value) = <[trim key := trim value]> data) /\
  (":"%char ∉ key -> key <> [] -> trim key = lit "__proto__" ->
   storeLine data (key ++ ":"%char :: value) = data) /\
  (":"%char ∉ line -> storeLine data line = data) /\
  storeLine data (":"%char :: value) = data.
Proof.
  split; [|split; [|split]].
  - intros Hcolon Hkey Hproto. rewrite storeLine_pair by done.
    unfold str_eqb. by rewrite bool_decide_eq_false_2.
  - intros Hcolon Hkey Hproto. rewrite storeLine_pair by done.
    unfold str_eqb. by rewrite bool_decide_eq_true_2.
  - intros Hline. unfold storeLine. rewrite splitOn_absent by done.
    by rewrite andb_false_r.
  - unfold storeLine. change (":"%char :: value) with ([] ++ ":"%char :: value).
    by rewrite splitOn_first by apply not_elem_of_nil.
Qed.

Lemma storeLine_first_colon_witness :
  storeLine ∅ (lit "HEADLINE: Dhaka: Port Expansion Begins")
    = <[lit "HEADLINE" := lit "Dhaka: Port Expansion Begins"]> ∅ /\
  storeLine ∅ (lit "__proto__: x") = ∅.
Proof.
  pose proof (storeLine_first_colon ∅ (lit "HEADLINE")
                (lit " Dhaka: Port Expansion Begins") []) as [Hpair _].
  pose proof (storeLine_first_colon ∅ (lit "__proto__") (lit " x") [])
    as (_ & Hproto & _).
  split.
  - refine (Hpair _ _ _); [|done|done].
    apply (bool_decide_unpack _). by vm_compute.
  - refine (Hproto _ _ _); [|done|done].
    apply (bool_decide_unpack _). by vm_compute.
Defined.

Lemma parseLines_snoc (text line : jsstring) :
  newline ∉ line ->
  parseLines (text ++ newline :: line) = storeLine (parseLines text) (trim line).
Proof.
  intros Hline. unfold parseLines.
  rewrite splitOn_app, (splitOn_absent newline line) by done.
  by rewrite map_app, fold_left_app.
Qed.

Lemma trim_pair (key value : jsstring) :
  trim (key ++ ":"%char :: value) = trimStart key ++ ":"%char :: trimEnd value.
Proof.
  unfold trim. rewrite trimStart_app_nonws by done.
  by rewrite trimEnd_app_nonws.
Qed.

Lemma trimStart_suffix_notin (c : ascii) (s : jsstring) : c ∉ s -> c ∉ trimStart s.
Proof.
  destruct (trimStart_decomp s) as (pre & Hs & _). intros Hc Hin. apply Hc.
  rewrite Hs. apply elem_of_app. by right.
Qed.

(** X5: a further line of the reply replaces what earlier lines stored
    under its key: after a line [key: value], with a key that is not blank,
    holds no colon and is not [__proto__], the key (trimmed) maps to the
    value (trimmed), whatever came before, and the other keys keep their
    values. *)
Theorem later_line_wins (text key value other : jsstring) :
  newline ∉ key -> newline ∉ value -> ":"%char ∉ key -> trim key <> [] ->
  trim key <> lit "__proto__" ->
  parseLines (text ++ newline :: key ++ ":"%char :: value) !! trim key
    = Some (trim value) /\
  (other <> trim key ->
   parseLines (text ++ newline :: key ++ ":"%char :: value) !! other
     = parseLines text !! other).
Proof.
  intros Hnk Hnv Hcolon Hkey Hproto.
  assert (Hline : newline ∉ key ++ ":"%char :: value).
  { rewrite elem_of_app, elem_of_cons. intros [?|[?|?]]; done. }
  rewrite parseLines_snoc, trim_pair by done.
  rewrite storeLine_pair.
  - rewrite trim_trimStart, trim_trimEnd.
    unfold str_eqb. rewrite bool_decide_eq_false_2 by done. split.
    + apply lookup_insert_eq.
    + intros Hother. by apply lookup_insert_ne.
  - by apply trimStart_suffix_notin.
  - intros Hempty. apply Hkey. unfold trim. by rewrite Hempty.
Qed.

Lemma later_line_wins_witness :
  parseLines (lit "HEADLINE: first
CAPTION: c
HEADLINE: second") !! lit "HEADLINE" = Some (lit "second").
Proof.
  pose proof (later_line_wins (lit "HEADLINE: first
CAPTION: c") (lit "HEADLINE") (lit " second") []) as H.
  destruct H as [Hlast _];
    [apply (bool_decide_unpack _); by vm_compute ..|exact Hlast].
Defined.

Lemma elem_of_rev {A : Type} (x : A) (l : list A) : x ∈ rev l <-> x ∈ l.
Proof. rewrite !list_elem_of_In. symmetry. apply in_rev. Qed.

Lemma trim_notin (c : ascii) (s : jsstring) : c ∉ s -> c ∉ trim s.
Proof.
  intros Hc. unfold trim, trimEnd. rewrite elem_of_rev.
  apply trimStart_suffix_notin. rewrite elem_of_rev.
  by apply trimStart_suffix_notin.
Qed.

Lemma splitOn_pieces (sep : ascii) (s : jsstring) :
  Forall (fun piece => sep ∉ piece) (splitOn sep s).
Proof.
  induction s as [|c s IH]; simpl.
  - constructor; [apply not_elem_of_nil|constructor].
  - case_bool_decide as Hc.
    + constructor; [apply not_elem_of_nil|done].
    + destruct (splitOn sep s) as [|piece pieces]; [repeat constructor|].
      * rewrite elem_of_cons. intros [?|?%elem_of_nil]; done.
      * apply Forall_cons in IH as [Hpiece Hpieces]. constructor; [|done].
        rewrite elem_of_cons. intros [?|?]; done.
Qed.

Lemma storeLine_trimmed (data : gmap jsstring jsstring) (line : jsstring) :
  map_Forall (fun _ v => trim v = v) data ->
  map_Forall (fun _ v => trim v = v) (storeLine data line).
Proof.
  intros Hdata. unfold storeLine.
  destruct (splitOn ":"%char line) as [|key valueParts]; [done|].
  destruct (truthy key && bool_decide (0 < length valueParts)); [|done].
  destruct (str_eqb (trim key) (lit "__proto__")); [done|].
  apply map_Forall_insert_2; [apply trim_idempotent|done].
Qed.

Lemma parseLines_trimmed (text : jsstring) :
  map_Forall (fun _ v => trim v = v) (parseLines text).
Proof.
  unfold parseLines.
  assert (Hfold : forall lines (data : gmap jsstring jsstring),
            map_Forall (fun _ v => trim v = v) data ->
            map_Forall (fun _ v => trim v = v) (fold_left storeLine lines data)).
  { induction lines as [|line lines IH]; simpl; [done|].
    intros data Hdata. by apply IH, storeLine_trimmed. }
  apply Hfold, map_Forall_empty.
Qed.

(** X6: in every result the parser returns, the list of highlight phrases is
    not empty, no phrase has white space at either end or holds a comma, and
    each of the headline, the image prompt, the caption and the source name
    is either undefined or a string with no white space at either end. *)
Theorem parsed_fields_trimmed (raw : jsstring) (r : GeminiAnalysisResult) :
  interpretReply (Some raw) = Returns (Some r) ->
  highlightWords r <> [] /\
  Forall (fun w => trim w = w /\ ","%char ∉ w) (highlightWords r) /\
  (forall h, headline r = Some h -> trim h = h) /\
  (forall p, imagePrompt r = Some p -> trim p = p) /\
  (forall c, caption r = Some c -> trim c = c) /\
  (forall n, sourceName r = Some n -> trim n = n).
Proof.
  unfold interpretReply. destruct (str_eqb (trim raw) (lit "IRRELEVANT")); [done|].
  unfold parseAnalysis. pose proof (parseLines_trimmed (trim raw)) as Htrim.
  destruct (parseLines (trim raw) !! lit "HIGHLIGHT_WORDS") as [words|]; [|done].
  intros [= <-]. simpl. split; [|split].
  - pose proof (splitOn_nonempty ","%char words).
    by destruct (splitOn ","%char words).
  - rewrite Forall_forall. intros w (piece & -> & Hpiece)%list_elem_of_fmap.
    split; [apply trim_idempotent|]. apply trim_notin.
    pose proof (splitOn_pieces ","%char words) as Hpieces.
    rewrite Forall_forall in Hpieces. by apply Hpieces.
  - repeat split; intros v Hv; by apply (Htrim _ _ Hv).
Qed.

Lemma parsed_fields_trimmed_witness :
  exists r, interpretReply (Some (replyWithId "1")) = Returns (Some r) /\
            highlightWords r <> [] /\
            Forall (fun w => trim w = w /\ ","%char ∉ w) (highlightWords r).
Proof.
  eexists. split; [by vm_compute|].
  match goal with
  | |- context [highlightWords ?r] =>
      pose proof (parsed_fields_trimmed (replyWithId "1") r) as H
  end.
  destruct H as (Hne & Hwords & _); [by vm_compute|]. by split.
Defined.

(** ** Reading the chosen index *)

Lemma parseDigits_stop (acc : Z) (rest : jsstring) :
  match rest with [] => True | c :: _ => digitValue c = None end ->
  parseDigits (Some acc) rest = Some acc.
Proof. destruct rest as [|c rest]; simpl; [done|]. by intros ->. Qed.

Lemma parseDigits_uint_app (d : Decimal.uint) (rest : jsstring) :
  match rest with [] => True | c :: _ => digitValue c = None end ->
  forall acc : Z,
    (0 <= acc)%Z ->
    parseDigits (Some acc) (lit (NilEmpty.string_of_uint d) ++ rest)
      = Some (Z.of_nat (Nat.of_uint_acc d (Z.to_nat acc))).
Proof.
  intros Hrest.
  induction d as [|d IH|d IH|d IH|d IH|d IH|d IH|d IH|d IH|d IH|d IH];
    intros acc Hacc;
    [simpl; rewrite parseDigits_stop by done; f_equal; lia| | | | | | | | | |];
    cbn [NilEmpty.string_of_uint lit list_ascii_of_string app parseDigits];
    eval_digit; cbv iota beta; change (default 0%Z (Some acc)) with acc;
    change (list_ascii_of_string (NilEmpty.string_of_uint d))
      with (lit (NilEmpty.string_of_uint d));
    rewrite IH by lia;
    do 2 f_equal; cbn [Nat.of_uint_acc]; rewrite Nat.tail_mul_spec; f_equal; lia.
Qed.

Lemma parseDigits_numeral (n : nat) (rest : jsstring) :
  match rest with [] => True | c :: _ => digitValue c = None end ->
  parseDigits None (String_of_nat n ++ rest) = Some (Z.of_nat n).
Proof.
  intros Hrest. unfold String_of_nat.
  pose proof (to_uint_nonnil n) as Hnil.
  pose proof (DecimalNat.Unsigned.of_to n) as Hof. unfold Nat.of_uint in Hof.
  destruct (Nat.to_uint n) as [|d|d|d|d|d|d|d|d|d|d]; [done| | | | | | | | | |];
    cbn [NilEmpty.string_of_uint lit list_ascii_of_string app parseDigits];
    eval_digit; cbv iota beta; change (default 0%Z None) with 0%Z;
    change (list_ascii_of_string (NilEmpty.string_of_uint d))
      with (lit (NilEmpty.string_of_uint d));
    rewrite parseDigits_uint_app by (done || lia);
    do 2 f_equal; rewrite <- Hof; cbn [Nat.of_uint_acc]; f_equal.
Qed.

Lemma String_of_nat_head (n : nat) :
  exists c s, String_of_nat n = c :: s /\ isWhiteSpace c = false /\
              c <> "-"%char /\ c <> "+"%char.
Proof.
  unfold String_of_nat. pose proof (to_uint_nonnil n) as Hnil.
  destruct (Nat.to_uint n); [done|..]; simpl; by eexists _, _.
Qed.

Lemma parseInt_numeral (ws rest : jsstring) (n : nat) :
  forallb isWhiteSpace ws = true ->
  match rest with [] => True | c :: _ => digitValue c = None end ->
  parseInt (Some (ws ++ String_of_nat n ++ rest)) = Some (Z.of_nat n).
Proof.
  intros Hws Hrest. unfold parseInt. rewrite trimStart_whitespace by done.
  destruct (String_of_nat_head n) as (c & s & Heq & Hc & Hminus & Hplus).
  pose proof (parseDigits_numeral n rest Hrest) as Hdigits.
  rewrite Heq in *. change ((c :: s) ++ rest) with (c :: (s ++ rest)) in *.
  rewrite trimStart_fixed by done.
  by rewrite !bool_decide_eq_false_2 by done.
Qed.

(** X7: [parseInt] reads a decimal numeral after any leading white space and
    stops at the first code unit that is not a digit, ignoring the rest; a
    minus sign before the numeral negates it; this for numerals up to 2^53,
    which a number holds exactly.  A string whose first code unit after the
    white space is neither a digit nor a sign gives NaN. *)
Theorem parseInt_lenient (ws rest : jsstring) (n : nat) :
  forallb isWhiteSpace ws = true ->
  match rest with [] => True | c :: _ => digitValue c = None end ->
  ((Z.of_nat n <= 2 ^ 53)%Z ->
   parseInt (Some (ws ++ String_of_nat n ++ rest)) = Some (Z.of_nat n) /\
   parseInt (Some (ws ++ "-"%char :: String_of_nat n ++ rest)) = Some (- Z.of_nat n)%Z) /\
  (match rest with
   | [] => True
   | c :: _ => isWhiteSpace c = false -> c <> "-"%char -> c <> "+"%char ->
               parseInt (Some (ws ++ rest)) = None
   end).
Proof.
  intros Hws Hrest. split; [intros _; split|].
  - by apply parseInt_numeral.
  - unfold parseInt. rewrite trimStart_whitespace by done.
    rewrite trimStart_fixed by done.
    rewrite bool_decide_eq_true_2 by done.
    by rewrite parseDigits_numeral.
  - destruct rest as [|c rest']; [done|]. intros Hc Hminus Hplus.
    unfold parseInt. rewrite trimStart_whitespace by done.
    rewrite trimStart_fixed by done.
    rewrite !bool_decide_eq_false_2 by done. simpl. by rewrite Hrest.
Qed.

Lemma parseInt_lenient_witness :
  parseInt (Some (lit " 2nd article")) = Some 2%Z /\
  parseInt (Some (lit " -2nd article")) = Some (-2)%Z /\
  parseInt (Some (lit " nd article")) = None.
Proof.
  pose proof (parseInt_lenient (lit " ") (lit "nd article") 2 eq_refl eq_refl)
    as (Hnum & Hnan).
  destruct Hnum as [Hpos Hneg]; [by vm_compute|].
  split; [exact Hpos|]. split; [exact Hneg|]. by apply Hnan.
Defined.

Lemma articleEntry_reads_id (n : nat) (b : NewsArticle) :
  parseInt (Some (drop 8 (articleEntry n b))) = Some (Z.of_nat n).
Proof.
  unfold articleEntry. change (drop 8 (lit "ARTICLE " ++ ?x)) with x.
  by apply (parseInt_numeral [] _ n).
Qed.

(** X8: the entry written at a position of the prompt's list carries that
    position, counted from 1, as the number after the word ARTICLE, so the
    entries at two different positions differ whatever the articles are. *)
Theorem articleEntries_position (articles : list NewsArticle) (i j : nat)
    (e e' : jsstring) :
  articleEntries articles !! i = Some e ->
  articleEntries articles !! j = Some e' ->
  parseInt (Some (drop 8 e)) = Some (Z.of_nat (i + 1)) /\
  (e = e' -> i = j).
Proof.
  unfold articleEntries. rewrite !list_lookup_imap.
  destruct (articles !! i) as [a|]; [|done]. destruct (articles !! j) as [a'|]; [|done].
  simpl. intros [= <-] [= <-]. split; [apply articleEntry_reads_id|].
  intros Heq. pose proof (articleEntry_reads_id (i + 1) a) as Hi.
  rewrite Heq, articleEntry_reads_id in Hi. injection Hi as Hi. lia.
Qed.

Lemma articleEntries_position_witness :
  exists e, articleEntries [portArticle; riverArticle] !! 1 = Some e /\
            parseInt (Some (drop 8 e)) = Some 2%Z.
Proof.
  eexists. split; [reflexivity|].
  match goal with
  | |- parseInt (Some (drop 8 ?e)) = _ =>
      pose proof (articleEntries_position [portArticle; riverArticle] 1 1 e e
                    eq_refl eq_refl) as [Hread _]
  end.
  exact Hread.
Defined.

Lemma chosenArticleAt_None (articles : list NewsArticle) (chosenId : option Z) :
  chosenArticleAt articles chosenId = None <->
  chosenId = None \/
  exists z, chosenId = Some z /\ (z < 1 \/ Z.of_nat (length articles) < z)%Z.
Proof.
  unfold chosenArticleAt. destruct chosenId as [z|]; [|split; [by left|done]].
  destruct (Z.leb_spec 0 (z - 1)) as [Hpos|Hneg].
  - rewrite lookup_ge_None. split.
    + intros Hlen. right. exists z. split; [done|]. right. lia.
    + intros [?|(z' & [= <-] & [?|?])]; [done|lia|lia].
  - split; [|done]. intros _. right. exists z. split; [done|]. left. lia.
Qed.

(** X9: when the parser returns a result whose chosen index is NaN, below 1
    or above the number of candidates, the category ends with a TypeError,
    nothing is chosen and the set of used links stays as it was. *)
Theorem invalid_choice_fails (w : World) (used : gset jsstring) (category : NewsCategory)
    (articles : list NewsArticle) (r : GeminiAnalysisResult) :
  fetchNewsForCategory (fetchNews w) category used = Returns articles ->
  articles <> [] ->
  analyzeArticlesWithGemini articles (generateContent w) = Returns (Some r) ->
  (chosenId r = None \/
   exists z, chosenId r = Some z /\ (z < 1 \/ Z.of_nat (length articles) < z)%Z) ->
  categoryStatus (processCategory w used category) = Failed TypeError /\
  chosen (processCategory w used category) = None /\
  usedAfter (processCategory w used category) = used.
Proof.
  intros Hfetch Hne Han Hid%chosenArticleAt_None. unfold processCategory.
  rewrite Hfetch. rewrite bool_decide_eq_false_2 by (by destruct articles).
  by rewrite Han, Hid.
Qed.

Lemma invalid_choice_fails_witness :
  categoryStatus (processCategory (sampleWorld [portArticle] (replyWithId "0")) ∅ politics)
    = Failed TypeError /\
  usedAfter (processCategory (sampleWorld [portArticle] (replyWithId "0")) ∅ politics) = ∅.
Proof.
  pose proof (invalid_choice_fails (sampleWorld [portArticle] (replyWithId "0")) ∅ politics
                [portArticle]
                {| chosenId := Some 0%Z;
                   headline := Some (lit "Dhaka Port Expansion Begins");
                   highlightWords := [lit "Port Expansion"];
                   imagePrompt := Some (lit "Cranes over a harbour at dawn");
                   caption := Some (lit "Work begins.");
                   sourceName := Some (lit "thedailystar") |}) as H.
  destruct H as (Hstatus & _ & Hused).
  - by vm_compute.
  - done.
  - by vm_compute.
  - right. exists 0%Z. split; [done|]. left. lia.
  - by split.
Defined.

(** ** The Batch Orchestrator *)

(** X10: a category that chooses no article, whether it was skipped or it
    failed, leaves the rest of the run exactly as it would have been without
    it. *)
Theorem unchosen_category_transparent (world : NewsCategory -> World)
    (used : gset jsstring) (category : NewsCategory) (categories : list NewsCategory) :
  chosen (processCategory (world category) used category) = None ->
  runCategories world used (category :: categories)
    = processCategory (world category) used category
        :: runCategories world used categories.
Proof.
  intros Hchosen. simpl.
  pose proof (processCategory_step (world category) used category) as (_ & _ & Hafter).
  rewrite Hchosen in Hafter. by rewrite Hafter.
Qed.

Lemma unchosen_category_transparent_witness :
  let world := fun _ : NewsCategory => sampleWorld [portArticle] (lit "IRRELEVANT") in
  runCategories world ∅ [trending; politics]
    = processCategory (world trending) ∅ trending :: runCategories world ∅ [politics].
Proof.
  intros world. apply (unchosen_category_transparent world ∅ trending [politics]).
  by vm_compute.
Defined.

Lemma runCategories_final (world : NewsCategory -> World) (categories : list NewsCategory) :
  forall used,
    default used (usedAfter <$> last (runCategories world used categories))
      = list_to_set (chosenLinks (runCategories world used categories)) ∪ used.
Proof.
  induction categories as [|c cs IH]; intros used.
  - cbn. symmetry. apply (left_id_L ∅ (∪)).
  - cbn [runCategories].
    pose proof (processCategory_step (world c) used c) as (_ & _ & Hch).
    set (r := processCategory (world c) used c) in *.
    specialize (IH (usedAfter r)).
    assert (Hlinks : chosenLinks (r :: runCategories world (usedAfter r) cs)
                     = match chosen r with
                       | Some a => link a :: chosenLinks (runCategories world (usedAfter r) cs)
                       | None => chosenLinks (runCategories world (usedAfter r) cs)
                       end).
    { unfold chosenLinks. simpl. by destruct (chosen r). }
    rewrite Hlinks.
    assert (Hlast : default used (usedAfter <$> last (r :: runCategories world (usedAfter r) cs))
                    = default (usedAfter r)
                        (usedAfter <$> last (runCategories world (usedAfter r) cs))).
    { destruct (runCategories world (usedAfter r) cs) as [|r' rs] eqn:Hrs; [done|].
      rewrite last_cons. by destruct (last (r' :: rs)) eqn:Hl. }
    rewrite Hlast, IH.
    destruct (chosen r) as [a|].
    + destruct Hch as [_ ->]. rewrite list_to_set_cons.
      rewrite (assoc_L (∪)). f_equal. apply (comm_L (∪)).
    + by rewrite Hch.
Qed.

(** X11: when the batch ends, the set of used links holds exactly the links
    of the articles chosen during the run, one for each category that
    chose. *)
Theorem final_used_links (world : NewsCategory -> World) :
  let reports := processNewsBatch world in
  usedAfter <$> last reports = Some (list_to_set (chosenLinks reports)) /\
  (forall final, usedAfter <$> last reports = Some final ->
     size final = length (chosenLinks reports)) /\
  length (chosenLinks reports) <= 5.
Proof.
  intros reports.
  pose proof (runCategories_final world NEWS_CATEGORIES ∅) as Hfinal.
  fold (processNewsBatch world) in Hfinal. fold reports in Hfinal.
  rewrite (right_id_L ∅ (∪)) in Hfinal.
  assert (Hlen : length reports = 5).
  { subst reports. unfold processNewsBatch.
    rewrite <- (length_map reportCategory), runCategories_categories. done. }
  assert (Hnodup : NoDup (chosenLinks reports))
    by (subst reports; apply runCategories_NoDup).
  clearbody reports.
  assert (Hsome : usedAfter <$> last reports = Some (list_to_set (chosenLinks reports))).
  { destruct (last reports) as [r|] eqn:Hlast; simpl in *; [by rewrite Hfinal|].
    apply last_None in Hlast. by rewrite Hlast in Hlen. }
  split; [done|]. split.
  - intros final. rewrite Hsome. intros [= <-]. by apply size_list_to_set.
  - rewrite <- Hlen. unfold chosenLinks. clear.
    induction reports as [|r rs IH]; simpl; [done|].
    unfold omap in IH. destruct (link <$> chosen r); simpl; lia.
Qed.

Lemma final_used_links_witness :
  let reports :=
    processNewsBatch (fun _ => sampleWorld [portArticle; riverArticle] (replyWithId "1")) in
  usedAfter <$> last reports = Some (list_to_set (chosenLinks reports)) /\
  length (chosenLinks reports) = 2.
Proof.
  intros reports.
  pose proof (final_used_links
                (fun _ => sampleWorld [portArticle; riverArticle] (replyWithId "1")))
    as (Hfinal & _ & _).
  split; [exact Hfinal|]. by vm_compute.
Defined.

(** ** The Image Resolver *)

(** X13: when the article's own image was fetched, [prepareMainImage]
    returns it whatever the image generation would answer, so the generation
    is not consulted and cannot make the step fail; when the article has no
    image reference, or an empty one, the answer of the fetch is not
    consulted. *)
Theorem prepareMainImage_effects (article : NewsArticle) (geminiPrompt : option jsstring)
    (fetch : jsstring -> ImageFetch)
    (generateImages : option jsstring -> ImageGeneration) :
  (forall payload, fetchOriginalImage article fetch = Some payload ->
     forall generateImages',
       prepareMainImage article geminiPrompt fetch generateImages'
         = Returns (Some payload)) /\
  (opt_truthy (image_url article) = false ->
   forall fetch',
     prepareMainImage article geminiPrompt fetch' generateImages
       = prepareMainImage article geminiPrompt fetch generateImages).
Proof.
  split.
  - intros payload Hfetched generateImages'. unfold prepareMainImage.
    by rewrite Hfetched.
  - intros Hnone fetch'. unfold prepareMainImage, fetchOriginalImage.
    destruct (image_url article) as [[|c url]|]; done.
Qed.

Lemma prepareMainImage_effects_witness :
  prepareMainImage portArticle None
    (fun _ => ImageResponse true None (Some (lit "Man"))) (fun _ => GenerationRejects)
  = Returns (Some (lit "data:image/png;base64,TWFu")).
Proof.
  pose proof (prepareMainImage_effects portArticle None
                (fun _ => ImageResponse true None (Some (lit "Man")))
                (fun _ => GenerationResponse None)) as (Hfetched & _).
  by apply Hfetched.
Defined.

Lemma list_ind_by_three {A : Type} (P : list A -> Prop) :
  P [] -> (forall a, P [a]) -> (forall a b, P [a; b]) ->
  (forall a b c l, P l -> P (a :: b :: c :: l)) ->
  forall l, P l.
Proof.
  intros H0 H1 H2 H3 l.
  assert (Hall : P l /\ (forall a, P (a :: l)) /\ (forall a b, P (a :: b :: l))).
  { induction l as [|x l (IH0 & IH1 & IH2)]; [done|].
    split; [apply IH1|]. split; [intros a; apply IH2|]. intros a b. by apply H3. }
  apply Hall.
Qed.

Lemma base64Digit_alphabet (n : N) : (n < 64)%N -> base64Digit n ∈ base64Alphabet.
Proof.
  intros Hn. unfold base64Digit. apply list_elem_of_In, nth_In.
  change (length base64Alphabet) with 64. lia.
Qed.

Lemma code_bound (c : ascii) : (code c < 256)%N.
Proof. apply N_ascii_bounded. Qed.

Ltac base64_char :=
  first [ by right
        | left; apply base64Digit_alphabet;
          first [ apply N.mod_lt; lia | apply N.Div0.div_lt_upper_bound; lia ] ].

(** X14: the base64 text of a byte string has four characters for every
    started group of three bytes, and each of them is a letter of the base64
    alphabet or the padding sign. *)
Theorem btoa_shape (binary : jsstring) :
  length (btoa binary) = 4 * ((length binary + 2) / 3) /\
  Forall (fun c => c ∈ base64Alphabet \/ c = "="%char) (btoa binary).
Proof.
  induction binary as [|a|a b|a b c rest [IHlen IHall]] using list_ind_by_three.
  - split; [done|constructor].
  - split; [done|]. pose proof (code_bound a). cbn [btoa].
    repeat (apply Forall_cons_2; [base64_char|]). constructor.
  - split; [done|]. pose proof (code_bound a). pose proof (code_bound b). cbn [btoa].
    repeat (apply Forall_cons_2; [base64_char|]). constructor.
  - split.
    + cbn [btoa length]. rewrite IHlen.
      replace (S (S (S (length rest))) + 2) with (1 * 3 + (length rest + 2)) by lia.
      rewrite Nat.div_add_l by lia. lia.
    + pose proof (code_bound a). pose proof (code_bound b). pose proof (code_bound c).
      cbn [btoa]. repeat (apply Forall_cons_2; [base64_char|]). exact IHall.
Qed.

(** ** The Composition Engine *)

Lemma truthyParts_nonempty (parts : captures) :
  Forall (fun s => s <> []) (truthyParts parts).
Proof.
  rewrite Forall_forall. intros s. unfold truthyParts. rewrite list_elem_of_omap.
  intros ([[|c t]|] & _ & Hs); [done| |done]. by injection Hs as <-.
Qed.

(** X15: when highlighting is active and the pattern built from the phrases
    is accepted, segmentation ends and returns segments, and none of the
    segments has an empty text; when highlighting is not active it returns
    one segment, not highlighted, even for an empty headline. *)
Theorem segments_not_empty (headline : jsstring) (highlightWords : list jsstring) :
  (noHighlighting highlightWords = false ->
   forall r groups,
     new_RegExp (highlightPattern highlightWords) = Pattern r groups ->
     exists parts,
       splitHeadlineForHighlighting headline highlightWords = Some (Returns parts) /\
       Forall (fun p => text p <> []) parts) /\
  (noHighlighting highlightWords = true ->
   splitHeadlineForHighlighting headline highlightWords
     = Some (Returns [ {| text := headline; highlighted := false |} ])).
Proof.
  unfold splitHeadlineForHighlighting. split; intros Hguard; rewrite Hguard; [|done].
  intros r groups ->.
  destruct (String_split_total r groups headline) as [parts ->].
  eexists. split; [done|].
  apply Forall_fmap. eapply Forall_impl; [apply truthyParts_nonempty|]. done.
Qed.

Lemma segments_not_empty_witness :
  exists parts,
    splitHeadlineForHighlighting (lit "xaby") [lit "a(b)"] = Some (Returns parts) /\
    Forall (fun p => text p <> []) parts.
Proof.
  pose proof (segments_not_empty (lit "xaby") [lit "a(b)"]) as [Hactive _].
  apply (Hactive eq_refl (RGroup 1 (RSeq (RChar "a") (RGroup 2 (RChar "b")))) 2).
  by vm_compute.
Defined.

(** Reading plain code units and opening parentheses never closes a group:
    what was on the stack stays there. *)
Lemma parsePattern_opening (w : jsstring) :
  forallb (fun c => plainChar c || bool_decide (c = "("%char)) w = true ->
  forall rest top stack groups,
    exists top' opened groups',
      parsePattern (w ++ rest) top stack groups
        = parsePattern rest top' (opened ++ stack) groups' /\
      ("("%char ∈ w -> opened <> []).
Proof.
  induction w as [|c w IH]; simpl; intros Hw rest top stack groups.
  - exists top, [], groups. split; [done|]. by intros ?%elem_of_nil.
  - apply andb_prop in Hw as [Hc Hw].
    destruct (decide (c = "("%char)) as [->|Hopen].
    + rewrite bool_decide_eq_true_2 by done.
      destruct (IH Hw rest emptyFrame ((S groups, top) :: stack) (S groups))
        as (top' & opened & groups' & -> & _).
      exists top', (opened ++ [(S groups, top)]), groups'.
      split; [by rewrite <- app_assoc|]. intros _. by destruct opened.
    + rewrite (bool_decide_eq_false_2 _ Hopen) in *. rewrite orb_false_r in Hc.
      unfold plainChar in Hc.
      destruct (decide (c = ")"%char)) as [->|Hclose]; [done|].
      rewrite (bool_decide_eq_false_2 _ Hclose).
      destruct (decide (c = "|"%char)) as [->|Hbar].
      * rewrite bool_decide_eq_true_2 by done.
        destruct (IH Hw rest (nextAlternative top) stack groups)
          as (top' & opened & groups' & -> & Hopened).
        exists top', opened, groups'. split; [done|].
        intros [?|?]%elem_of_cons; [done|by apply Hopened].
      * rewrite (bool_decide_eq_false_2 _ Hbar) in *.
        rewrite orb_false_r in Hc. apply negb_true_iff in Hc. rewrite Hc.
        destruct (IH Hw rest (addTerm top (RChar c)) stack groups)
          as (top' & opened & groups' & -> & Hopened).
        exists top', opened, groups'. split; [done|].
        intros [?|?]%elem_of_cons; [done|by apply Hopened].
Qed.

Lemma join_opening (highlightWords : list jsstring) :
  forallb (forallb (fun c => plainChar c || bool_decide (c = "("%char))) highlightWords
    = true ->
  forallb (fun c => plainChar c || bool_decide (c = "("%char))
    (join (lit "|") highlightWords) = true.
Proof.
  induction highlightWords as [|p ps IH]; [done|].
  intros [Hp Hps]%andb_prop. cbn [join]. destruct ps as [|p' ps]; [done|].
  rewrite forallb_app. apply andb_true_intro. split; [exact Hp|].
  change (lit "|" ++ join (lit "|") (p' :: ps))
    with ("|"%char :: join (lit "|") (p' :: ps)).
  cbn [forallb]. apply andb_true_intro. split; [done|]. by apply IH.
Qed.

Lemma elem_of_join (c : ascii) (sep phrase : jsstring) (phrases : list jsstring) :
  phrase ∈ phrases -> c ∈ phrase -> c ∈ join sep phrases.
Proof.
  induction phrases as [|p ps IH]; [by intros ?%elem_of_nil|].
  intros Hin Hc. destruct ps as [|p' ps].
  - apply list_elem_of_singleton in Hin as ->. done.
  - cbn [join]. rewrite !elem_of_app.
    apply elem_of_cons in Hin as [->|Hin]; [by left|]. right. right. by apply IH.
Qed.

(** X16: when a phrase holds an opening parenthesis and no phrase holds a
    closing one (nor any other syntax character but the bar), the pattern is
    refused: segmentation throws a SyntaxError whatever the headline, unless
    the guard for an empty first phrase returned first. *)
Theorem unclosed_parenthesis_throws (headline phrase : jsstring)
    (highlightWords : list jsstring) :
  noHighlighting highlightWords = false ->
  forallb (forallb (fun c => plainChar c || bool_decide (c = "("%char))) highlightWords
    = true ->
  phrase ∈ highlightWords ->
  "("%char ∈ phrase ->
  splitHeadlineForHighlighting headline highlightWords = Some (Throws SyntaxError).
Proof.
  intros Hguard Hchars Hphrase Hopen. unfold splitHeadlineForHighlighting.
  rewrite Hguard. unfold new_RegExp, highlightPattern.
  cbn [lit list_ascii_of_string app parsePattern].
  rewrite bool_decide_eq_true_2 by done.
  destruct (parsePattern_opening (join (lit "|") highlightWords)
              (join_opening _ Hchars) [")"%char] emptyFrame [(1, emptyFrame)] 1)
    as (top' & opened & groups' & Hparse & Hopened).
  cbn [lit list_ascii_of_string] in Hparse. rewrite Hparse.
  assert (Hne : opened <> [])
    by (apply Hopened; by apply (elem_of_join _ _ phrase highlightWords)).
  destruct opened as [|[i f] [|[i' f'] opened]]; [done| |]; by vm_compute.
Qed.

Lemma unclosed_parenthesis_throws_witness :
  splitHeadlineForHighlighting (lit "Dhaka Port (Phase 2) Begins") [lit "Port (Phase"]
    = Some (Throws SyntaxError).
Proof.
  apply (unclosed_parenthesis_throws _ (lit "Port (Phase") [lit "Port (Phase"]).
  - reflexivity.
  - reflexivity.
  - by left.
  - apply (bool_decide_unpack _). by vm_compute.
Defined.

(** *** Highlighting one phrase *)

Lemma lowerChar_canonicalize (x : ascii) : lowerChar (canonicalize x) = lowerChar x.
Proof. destruct x as [[] [] [] [] [] [] [] []]; reflexivity. Qed.

Lemma canonicalize_lowerChar (x : ascii) : canonicalize (lowerChar x) = canonicalize x.
Proof. destruct x as [[] [] [] [] [] [] [] []]; reflexivity. Qed.

(** The two ways of ignoring case agree on code units below 256: what the
    pattern takes for equal, the comparison of lower-cased strings takes for
    equal, and conversely. *)
Lemma canonicalize_toLowerCase (a b : jsstring) :
  map canonicalize a = map canonicalize b <-> toLowerCase a = toLowerCase b.
Proof.
  unfold toLowerCase. split; intros Heq.
  - rewrite <- (map_ext _ _ lowerChar_canonicalize a).
    rewrite <- (map_ext _ _ lowerChar_canonicalize b).
    by rewrite <- !(map_map canonicalize lowerChar), Heq.
  - rewrite <- (map_ext _ _ canonicalize_lowerChar a).
    rewrite <- (map_ext _ _ canonicalize_lowerChar b).
    by rewrite <- !(map_map lowerChar canonicalize), Heq.
Qed.

Lemma matchLiteral_Some (w s after : jsstring) :
  matchLiteral w s = Some after <->
  exists m, s = m ++ after /\ map canonicalize m = map canonicalize w.
Proof.
  revert s. induction w as [|c w IH]; intros s; simpl.
  - split.
    + intros [= ->]. by exists [].
    + intros ([|x m] & -> & Hm); [done|by simpl in Hm].
  - destruct s as [|x s'].
    + split; [done|]. intros ([|y m] & Hs & Hm); [by simpl in Hm|done].
    + case_bool_decide as Hx.
      * rewrite IH. split.
        -- intros (m & -> & Hm). exists (x :: m). simpl. by rewrite Hx, Hm.
        -- intros ([|y m] & Hs & Hm); [by simpl in Hm|].
           simpl in Hs, Hm. injection Hs as -> ->. injection Hm as _ Hm. by exists m.
      * split; [done|]. intros ([|y m] & Hs & Hm); [by simpl in Hm|].
        simpl in Hs, Hm. injection Hs as -> ->. by injection Hm as Hxy _.
Qed.

Lemma matchLiteral_None (w s : jsstring) : matchLiteral w s = None <-> ~ occursAt w s.
Proof.
  unfold occursAt. split.
  - intros Hnone (m & rest & Hs & Hm).
    assert (Hsome : matchLiteral w s = Some rest) by (apply matchLiteral_Some; eauto).
    by rewrite Hnone in Hsome.
  - intros Hno. destruct (matchLiteral w s) as [after|] eqn:Hmatch; [|done].
    apply matchLiteral_Some in Hmatch as (m & Hs & Hm). destruct Hno. eauto.
Qed.

Lemma matchRegex_ext (r : regex) :
  forall s caps (k1 k2 : jsstring -> captures -> option (jsstring * captures)),
    (forall s1 caps1, k1 s1 caps1 = k2 s1 caps1) ->
    matchRegex r s caps k1 = matchRegex r s caps k2.
Proof.
  induction r as [|c|r1 IH1 r2 IH2|r1 IH1 r2 IH2|i r1 IH1]; simpl;
    intros s caps k1 k2 Hk.
  - apply Hk.
  - destruct s as [|x s']; [done|]. case_bool_decide; [apply Hk|done].
  - apply IH1. intros s1 caps1. by apply IH2.
  - rewrite (IH1 s caps k1 k2 Hk), (IH2 s caps k1 k2 Hk). done.
  - apply IH1. intros s1 caps1. apply Hk.
Qed.

Lemma matchRegex_literal (w : jsstring) :
  forall (t : regex) s caps k,
    matchRegex (fold_left RSeq (map RChar w) t) s caps k
      = matchRegex t s caps (fun s1 caps1 =>
          match matchLiteral w s1 with
          | Some s2 => k s2 caps1
          | None => None
          end).
Proof.
  induction w as [|c w IH]; intros t s caps k; simpl.
  - by apply matchRegex_ext.
  - rewrite IH. simpl. apply matchRegex_ext. intros s1 caps1.
    destruct s1 as [|x s1']; [done|]. by case_bool_decide.
Qed.

Lemma parsePattern_literal (w rest : jsstring) (stack : list (nat * frame)) (groups : nat) :
  forallb (fun c => negb (isSyntaxCharacter c)) w = true ->
  forall top,
    parsePattern (w ++ rest) top stack groups
      = parsePattern rest
          {| alternatives := alternatives top; terms := terms top ++ map RChar w |}
          stack groups.
Proof.
  induction w as [|c w IH]; simpl; intros Hw top.
  - rewrite app_nil_r. by destruct top.
  - apply andb_prop in Hw as [Hc Hw]. apply negb_true_iff in Hc.
    destruct (decide (c = "("%char)) as [->|Hopen]; [done|].
    destruct (decide (c = ")"%char)) as [->|Hclose]; [done|].
    destruct (decide (c = "|"%char)) as [->|Hbar]; [done|].
    rewrite (bool_decide_eq_false_2 _ Hopen), (bool_decide_eq_false_2 _ Hclose),
      (bool_decide_eq_false_2 _ Hbar), Hc.
    rewrite IH by done. unfold addTerm. simpl. by rewrite <- app_assoc.
Qed.

Lemma single_phrase_pattern (w : jsstring) :
  forallb (fun c => negb (isSyntaxCharacter c)) w = true ->
  new_RegExp (highlightPattern [w]) = Pattern (RGroup 1 (seqOf (map RChar w))) 1.
Proof.
  intros Hw. unfold new_RegExp, highlightPattern.
  cbn [join lit list_ascii_of_string app parsePattern].
  rewrite bool_decide_eq_true_2 by done.
  by rewrite parsePattern_literal.
Qed.

Lemma execAt_single_phrase (w s : jsstring) :
  w <> [] ->
  execAt (RGroup 1 (seqOf (map RChar w))) 1 s
    = match matchLiteral w s with
      | Some after => Some (after, [Some (take (length s - length after) s)])
      | None => None
      end.
Proof.
  intros Hw. destruct w as [|c w]; [done|]. unfold execAt.
  cbn [matchRegex map seqOf]. rewrite matchRegex_literal.
  cbn [matchRegex matchLiteral]. destruct s as [|x s']; [done|].
  case_bool_decide; [|done]. by destruct (matchLiteral w s').
Qed.

Lemma splitLoop_skip (r : regex) (groups : nat) (pre : jsstring) :
  forall fuel piece rest,
    (forall q, q < length pre -> execAt r groups (drop q (pre ++ rest)) = None) ->
    splitLoop (length pre + fuel) r groups piece (pre ++ rest)
      = splitLoop fuel r groups (piece ++ pre) rest.
Proof.
  induction pre as [|c pre IH]; intros fuel piece rest Hnone.
  - by rewrite app_nil_r.
  - cbn [length Nat.add app splitLoop].
    pose proof (Hnone 0 ltac:(simpl; lia)) as Hhere. simpl in Hhere. rewrite Hhere.
    rewrite IH; [by rewrite <- app_assoc|].
    intros q Hq. apply (Hnone (S q)). simpl. lia.
Qed.

Lemma String_split_nonempty (r : regex) (groups : nat) (S : jsstring) :
  S <> [] -> String_split r groups S = splitLoop (2 * length S + 2) r groups [] S.
Proof. by destruct S. Qed.

Lemma truthyParts_Some (s : jsstring) (parts : captures) :
  truthyParts (Some s :: parts) = (if truthy s then [s] else []) ++ truthyParts parts.
Proof. unfold truthyParts. simpl. by destruct s. Qed.

Lemma literal_groupFree (w : jsstring) : groupFree (seqOf (map RChar w)) = true.
Proof.
  apply seqOf_groupFree. induction w as [|c w IH]; [done|]. simpl. exact IH.
Qed.

Lemma splitLoop_at_match (r : regex) (groups fuel : nat) (piece rest after : jsstring)
    (caps : captures) :
  rest <> [] ->
  execAt r groups rest = Some (after, caps) ->
  length after <> length piece + length rest ->
  splitLoop (S fuel) r groups piece rest
    = (fun tail => Some piece :: caps ++ tail) <$> splitLoop fuel r groups [] after.
Proof.
  intros Hrest Hexec He. destruct rest as [|c rest']; [done|].
  cbn [splitLoop]. rewrite Hexec. by rewrite bool_decide_eq_false_2.
Qed.

(** X17: for a headline and a phrase whose code units are all below 256
    (the strings of this development), with one highlight phrase made of
    literal characters, the first place where the phrase occurs in the
    headline, ignoring case, becomes a highlighted segment holding the
    headline's own spelling; the segments before it spell the text before
    the occurrence and are not highlighted, and the segments after it spell
    the text after it.  Above 255 the case folding of the pattern and that
    of [toLowerCase] differ, and nothing is stated there. *)
Theorem first_occurrence_highlighted (pre m post w : jsstring) :
  forallb (fun c => negb (isSyntaxCharacter c)) w = true ->
  w <> [] ->
  map canonicalize m = map canonicalize w ->
  (forall q, q < length pre -> ~ occursAt w (drop q (pre ++ m ++ post))) ->
  exists before after,
    splitHeadlineForHighlighting (pre ++ m ++ post) [w]
      = Some (Returns (before ++ {| text := m; highlighted := true |} :: after)) /\
    concat (map text before) = pre /\
    Forall (fun p => highlighted p = false) before /\
    concat (map text after) = post.
Proof.
  intros Hw Hne Hm Hfirst.
  assert (Hlen : length m = length w).
  { rewrite <- (length_map canonicalize m), Hm. apply length_map. }
  assert (Hmne : m <> []) by (intros ->; by destruct w).
  unfold splitHeadlineForHighlighting.
  replace (noHighlighting [w]) with false by (by destruct w).
  rewrite single_phrase_pattern by done.
  set (r := RGroup 1 (seqOf (map RChar w))).
  assert (Hwhole : capturesWholeMatch r 1)
    by apply group_capturesWholeMatch, literal_groupFree.
  rewrite String_split_nonempty by (by destruct pre, m).
  replace (2 * length (pre ++ m ++ post) + 2)
    with (length pre + S (length pre + 2 * (length m + length post) + 1))
    by (rewrite !length_app; lia).
  rewrite splitLoop_skip.
  2:{ intros q Hq. unfold r. rewrite execAt_single_phrase by done.
      by rewrite (proj2 (matchLiteral_None w _) (Hfirst q Hq)). }
  assert (Hexec : execAt r 1 (m ++ post) = Some (post, [Some m])).
  { unfold r. rewrite execAt_single_phrase by done.
    rewrite (proj2 (matchLiteral_Some w (m ++ post) post)) by eauto.
    rewrite length_app.
    replace (length m + length post - length post) with (length m) by lia.
    by rewrite take_app_length. }
  rewrite (splitLoop_at_match r 1 _ _ (m ++ post) post [Some m]);
    [|by destruct m|done|rewrite !length_app; destruct m; [done|simpl; lia]].
  destruct (splitLoop_concat r 1 Hwhole (length pre + 2 * (length m + length post) + 1)
              [] post) as (tail & -> & Hconcat); [simpl; lia|].
  change ((fun tail0 : captures => Some ([] ++ pre) :: [Some m] ++ tail0) <$> Some tail)
    with (Some (Some pre :: Some m :: tail)).
  cbv iota beta. rewrite !truthyParts_Some, !map_app.
  replace (truthy m) with true by (by destruct m).
  exists (map (markPart [w]) (if truthy pre then [pre] else [])),
         (map (markPart [w]) (truthyParts tail)).
  split; [|split; [|split]].
  - do 3 f_equal. simpl. unfold markPart at 1. simpl. rewrite orb_false_r.
    f_equal. f_equal. apply bool_decide_eq_true_2.
    symmetry. by apply canonicalize_toLowerCase.
  - destruct pre; [done|]. simpl. by rewrite app_nil_r.
  - destruct pre as [|x pre']; [constructor|].
    constructor; [|constructor]. cbn [markPart highlighted existsb].
    rewrite orb_false_r.
    apply bool_decide_eq_false_2. intros Hlow%canonicalize_toLowerCase.
    apply (Hfirst 0); [simpl; lia|].
    exists (x :: pre'), (m ++ post). split; [done|]. by symmetry.
  - rewrite markPart_text. by rewrite Hconcat.
Qed.

Lemma first_occurrence_highlighted_witness :
  exists before after,
    splitHeadlineForHighlighting (lit "Dhaka PORT work, port news") [lit "port"]
      = Some (Returns (before ++ {| text := lit "PORT"; highlighted := true |} :: after)) /\
    concat (map text before) = lit "Dhaka " /\
    Forall (fun p => highlighted p = false) before /\
    concat (map text after) = lit " work, port news".
Proof.
  apply (first_occurrence_highlighted (lit "Dhaka ") (lit "PORT")
           (lit " work, port news") (lit "port")).
  - reflexivity.
  - done.
  - reflexivity.
  - intros q Hq. apply matchLiteral_None.
    do 6 (destruct q as [|q]; [reflexivity|]). simpl in Hq. lia.
Defined.

(** ** Links that stay withheld *)

Lemma runCategories_offered_avoid (world : NewsCategory -> World)
    (categories : list NewsCategory) (l : jsstring) :
  forall used,
    l ∈ used ->
    Forall (fun r => forall a, a ∈ offered r -> link a <> l)
      (runCategories world used categories).
Proof.
  induction categories as [|c cs IH]; intros used Hl; simpl; [constructor|].
  pose proof (processCategory_step (world c) used c) as (_ & Hoff & Hch).
  constructor.
  - intros a Ha Heq. apply (Hoff a Ha). by rewrite Heq.
  - apply IH. destruct (chosen (processCategory (world c) used c)) as [a|].
    + destruct Hch as [_ ->]. apply elem_of_union. by right.
    + by rewrite Hch.
Qed.

Lemma runCategories_withheld (world : NewsCategory -> World)
    (categories : list NewsCategory) :
  forall used i j r r' a,
    i < j ->
    runCategories world used categories !! i = Some r ->
    runCategories world used categories !! j = Some r' ->
    chosen r = Some a ->
    forall a', a' ∈ offered r' -> link a' <> link a.
Proof.
  induction categories as [|c cs IH]; intros used i j r r' a Hij; [done|].
  cbn [runCategories]. destruct j as [|j]; [lia|]. destruct i as [|i].
  - intros [= <-] Hr' Hchosen. simpl in Hr'.
    pose proof (processCategory_step (world c) used c) as (_ & _ & Hch).
    rewrite Hchosen in Hch. destruct Hch as [_ Hafter].
    assert (Hin : link a ∈ usedAfter (processCategory (world c) used c)).
    { rewrite Hafter. apply elem_of_union. left. by apply elem_of_singleton. }
    pose proof (runCategories_offered_avoid world cs (link a) _ Hin) as Hall.
    rewrite Forall_forall in Hall. apply Hall. by eapply list_elem_of_lookup_2.
  - simpl. intros Hr Hr'. eapply IH; [|exact Hr|exact Hr']. lia.
Qed.

(** X18: once a category has chosen an article, whether or not the category
    went on to post it, no later category of the run is offered an article
    with that link. *)
Theorem chosen_link_withheld (world : NewsCategory -> World) (i j : nat)
    (r r' : CategoryReport) (a a' : NewsArticle) :
  i < j ->
  processNewsBatch world !! i = Some r ->
  processNewsBatch world !! j = Some r' ->
  chosen r = Some a ->
  a' ∈ offered r' ->
  link a' <> link a.
Proof.
  intros Hij Hr Hr' Hchosen Ha'.
  by apply (runCategories_withheld world NEWS_CATEGORIES ∅ i j r r' a Hij Hr Hr' Hchosen).
Qed.

Lemma chosen_link_withheld_witness :
  let world := fun _ : NewsCategory =>
                 sampleWorld [portArticle; riverArticle] (replyWithId "1") in
  let first := processCategory (world trending) ∅ trending in
  let second := processCategory (world politics) (usedAfter first) politics in
  chosen first = Some portArticle /\
  Forall (fun a' => link a' <> link portArticle) (offered second).
Proof.
  intros world first second. split; [by vm_compute|].
  rewrite Forall_forall. intros a' Ha'.
  by apply (chosen_link_withheld world 0 1 first second portArticle a');
    [lia|reflexivity|reflexivity|vm_compute|].
Defined.
